(** * Reliability economics: trust vs. verify

    A shallow embedding of [src/reliability.js] and of the earlier variant of
    the same model ([src/unnamed/part_000]).  JavaScript numbers are IEEE 754
    binary64 values; they are modelled by Rocq's primitive [float], whose
    operations are the same correctly rounded binary64 operations, so every
    definition below computes bit for bit what the script computes.  Facts
    that hold for all numbers are proved on [SpecFloat]'s specification of
    these operations, to which [FloatAxioms] ties the primitive ones. *)

From Stdlib Require Import ZArith Floats Bool List String Lia.
Import ListNotations.

(* A decimal literal denotes the nearest binary64 value, as in JavaScript. *)
Set Warnings "-inexact-float".

Local Open Scope float_scope.

(** ** The JavaScript built-ins the scripts use *)

Module JS.

(** [Math.abs]. *)
Definition Math_abs (x : float) : float := abs x.

(** [Math.max] of two numbers: NaN if either is NaN, and [+0] counts as
    larger than [-0]. *)
Definition Math_max (x y : float) : float :=
  if is_nan x || is_nan y then nan
  else if x <? y then y
  else if y <? x then x
  else if get_sign x then y else x.

(** [Math.floor]: NaN, the infinities and the zeros are returned as they
    are; a finite number with a non-negative exponent is already an
    integer; otherwise the mantissa is shifted (rounding towards minus
    infinity) and the integer is converted back, which is exact. *)
Definition Math_floor (x : float) : float :=
  match Prim2SF x with
  | S754_finite s m e =>
      if (0 <=? e)%Z then x
      else
        let n := Z.shiftr (cond_Zopp s (Zpos m)) (- e) in
        if (n =? 0)%Z then zero
        else SF2Prim (binary_normalize prec emax n 0 false)
  | _ => x
  end.

End JS.
Import JS.

(** ** Data model: the object shapes the scripts pass around *)

(** The winner labels ["A"] and ["B"]; JavaScript's [null] is [None]. *)
Inductive Side : Set := A | B.


Module Worker.
Record t := mk { label : string; p : float; w : float; tWork : float }.
End Worker.

Module SharedCost.
Record t := mk { C : float; F : float }.
End SharedCost.

Module SharedTime.
Record t := mk { tVerify : float; tFix : float }.
End SharedTime.

Module CostCmp.
Record t := mk
  { costA : float; costB : float; cheaper : option Side; diff : float }.
End CostCmp.

Module TimeCmp.
Record t := mk
  { timeA : float; timeB : float;
    throughputA : float; throughputB : float;
    faster : option Side; diff : float }.
End TimeCmp.

Module Comparison.
Record t := mk { cost : CostCmp.t; time : TimeCmp.t }.
End Comparison.

Module BatchSummary.
Record t := mk
  { label : string; attempts : float; p : float; w : float;
    costPerJob : float; timePerJob : float;
    totalCost : float; totalTime : float;
    expectedCorrectFirstPass : float; expectedWrongFirstPass : float;
    finishedCorrectUnits : float }.
End BatchSummary.

Module TimeCost.
Record t := mk { timePerJob : float; costPerJob : float }.
End TimeCost.

(** The accumulator of the sweet-spot search; [pFast] starts as [null]. *)
Module Best.
Record t := mk
  { pFast : option float; profitFast : float;
    attempts : float; tWorkFast : float }.
End Best.

(** ** [src/unnamed/part_000]: the cost-only variant of the model *)

Module Economics.

Definition expectedValueTrust (p B L : float) : float :=
  p * B - (1 - p) * L.

Definition expectedValueVerify (p B C F : float) : float :=
  B - C - (1 - p) * F.

Definition expectedCostWithVerification (p w C F : float) : float :=
  w + C + (1 - p) * F.

Definition compareWorkersWithVerification
    (workerA workerB : Worker.t) (shared : SharedCost.t) : CostCmp.t :=
  let costA :=
    expectedCostWithVerification (Worker.p workerA) (Worker.w workerA)
      (SharedCost.C shared) (SharedCost.F shared) in
  let costB :=
    expectedCostWithVerification (Worker.p workerB) (Worker.w workerB)
      (SharedCost.C shared) (SharedCost.F shared) in
  if Math_abs (costA - costB) <? 1e-9 then CostCmp.mk costA costB None 0
  else if costA <? costB then CostCmp.mk costA costB (Some A) (costB - costA)
  else CostCmp.mk costA costB (Some B) (costA - costB).

Definition maxWagePremiumForHigherReliability (pLow pHigh F : float) : float :=
  (pHigh - pLow) * F.

(** The demo objects carry no [tWork] property: reading it would give
    [undefined], which arithmetic turns into NaN. *)
Definition worker70 : Worker.t := Worker.mk "Worker 70%" 0.7 50 nan.
Definition worker80 : Worker.t := Worker.mk "Worker 80%" 0.8 60 nan.
Definition shared : SharedCost.t := SharedCost.mk 20 100.

Definition comparison : CostCmp.t :=
  compareWorkersWithVerification worker70 worker80 shared.

End Economics.

(** ** [src/reliability.js]: cost, time, batches and sweeps *)

Module Reliability.

Definition expectedValueTrust (p B L : float) : float :=
  p * B - (1 - p) * L.

Definition expectedValueVerify (p B C F : float) : float :=
  B - C - (1 - p) * F.

Definition expectedCostWithVerification (p w C F : float) : float :=
  w + C + (1 - p) * F.

Definition expectedTimeWithVerification (p tWork tVerify tFix : float) : float :=
  tWork + tVerify + (1 - p) * tFix.

Definition jobsPerHour (expectedTimePerJobHours : float) : float :=
  1 / expectedTimePerJobHours.

Definition compareWorkersCostAndSpeed
    (workerA workerB : Worker.t)
    (sharedCost : SharedCost.t) (sharedTime : SharedTime.t) : Comparison.t :=
  let eps := 1e-9 in
  let costA :=
    expectedCostWithVerification (Worker.p workerA) (Worker.w workerA)
      (SharedCost.C sharedCost) (SharedCost.F sharedCost) in
  let costB :=
    expectedCostWithVerification (Worker.p workerB) (Worker.w workerB)
      (SharedCost.C sharedCost) (SharedCost.F sharedCost) in
  let timeA :=
    expectedTimeWithVerification (Worker.p workerA) (Worker.tWork workerA)
      (SharedTime.tVerify sharedTime) (SharedTime.tFix sharedTime) in
  let timeB :=
    expectedTimeWithVerification (Worker.p workerB) (Worker.tWork workerB)
      (SharedTime.tVerify sharedTime) (SharedTime.tFix sharedTime) in
  let throughputA := jobsPerHour timeA in
  let throughputB := jobsPerHour timeB in
  let cheaper :=
    if eps <? Math_abs (costA - costB)
    then (if costA <? costB then Some A else Some B) else None in
  let faster :=
    if eps <? Math_abs (timeA - timeB)
    then (if timeA <? timeB then Some A else Some B) else None in
  Comparison.mk
    (CostCmp.mk costA costB cheaper (Math_abs (costA - costB)))
    (TimeCmp.mk timeA timeB throughputA throughputB faster
       (Math_abs (timeA - timeB))).

Definition maxWagePremiumForHigherReliability (pLow pHigh F : float) : float :=
  (pHigh - pLow) * F.

Definition summarizeBatchByAttempts
    (label : string) (attempts : float) (worker : Worker.t)
    (sharedCost : SharedCost.t) (sharedTime : SharedTime.t) : BatchSummary.t :=
  let costPerJob :=
    expectedCostWithVerification (Worker.p worker) (Worker.w worker)
      (SharedCost.C sharedCost) (SharedCost.F sharedCost) in
  let timePerJob :=
    expectedTimeWithVerification (Worker.p worker) (Worker.tWork worker)
      (SharedTime.tVerify sharedTime) (SharedTime.tFix sharedTime) in
  let totalCost := attempts * costPerJob in
  let totalTime := attempts * timePerJob in
  let expectedCorrectFirstPass := Worker.p worker * attempts in
  let expectedWrongFirstPass := (1 - Worker.p worker) * attempts in
  let finishedCorrectUnits := attempts in
  BatchSummary.mk label attempts (Worker.p worker) (Worker.w worker)
    costPerJob timePerJob totalCost totalTime
    expectedCorrectFirstPass expectedWrongFirstPass finishedCorrectUnits.

(** *** Scenario wiring *)

Definition fastWorker : Worker.t :=
  Worker.mk "Fast but sloppy dev" 0.7 (120 * 3.0) 3.0.

Definition slowWorker : Worker.t :=
  Worker.mk "Slow but careful dev" 0.95 (120 * 4.0) 4.0.

Definition sharedCost : SharedCost.t :=
  SharedCost.mk (160 * 0.75) (140 * 2.25).

Definition sharedTime : SharedTime.t := SharedTime.mk 0.75 2.25.

Definition perJob : Comparison.t :=
  compareWorkersCostAndSpeed fastWorker slowWorker sharedCost sharedTime.

Definition sprintHours : float := 80.

Definition fastAttempts : float :=
  Math_floor (sprintHours / TimeCmp.timeA (Comparison.time perJob)).

Definition slowAttempts : float :=
  Math_floor (sprintHours / TimeCmp.timeB (Comparison.time perJob)).

Definition slowBatch : BatchSummary.t :=
  summarizeBatchByAttempts (Worker.label slowWorker) slowAttempts
    slowWorker sharedCost sharedTime.

Definition fastBatch : BatchSummary.t :=
  summarizeBatchByAttempts (Worker.label fastWorker) fastAttempts
    fastWorker sharedCost sharedTime.

Definition premium : float :=
  maxWagePremiumForHigherReliability
    (Worker.p fastWorker) (Worker.p slowWorker) (SharedCost.F sharedCost).

(** *** First sweep: capped speed gain *)

Definition tWorkFastCapped (pFast : float) : float :=
  let speedFloor := 0.5 in
  let linear := Worker.tWork slowWorker * (pFast / Worker.p slowWorker) in
  let minWork := Worker.tWork slowWorker * speedFloor in
  Math_max linear minWork.

(** *** Second sweep: cheap fast developer, expensive verifier *)

Definition sweep2UnitPrice : float := 1000.
Definition sweep2SprintHours : float := 80.
Definition slowDevRate : float := Worker.w slowWorker / Worker.tWork slowWorker.
Definition verifierRate : float := 180.

Definition tVerify2 : float := SharedTime.tVerify sharedTime.
Definition tFix2 : float := 4.0.
Definition C2 : float := SharedCost.C sharedCost.
Definition F2 : float := verifierRate * tFix2.

Definition timeCostPerJobSweep2 (p tWork hourlyRate : float) : TimeCost.t :=
  let timePerJob := expectedTimeWithVerification p tWork tVerify2 tFix2 in
  let costPerJob := expectedCostWithVerification p (hourlyRate * tWork) C2 F2 in
  TimeCost.mk timePerJob costPerJob.

Definition slowTC2 : TimeCost.t :=
  timeCostPerJobSweep2 (Worker.p slowWorker) (Worker.tWork slowWorker) slowDevRate.
Definition slowAttempts2 : float :=
  Math_floor (sweep2SprintHours / TimeCost.timePerJob slowTC2).
Definition slowRevenue2 : float := slowAttempts2 * sweep2UnitPrice.
Definition slowTotalCost2 : float := slowAttempts2 * TimeCost.costPerJob slowTC2.
Definition slowProfit2 : float := slowRevenue2 - slowTotalCost2.





End Reliability.

Import Reliability.

(** * Definitions used to state the properties *)

(** [x] is within [eps] of [y], as a script would test it. *)
Definition within (eps x y : float) : Prop :=
  (Math_abs (x - y) <=? eps) = true.



(** ** Binary64 numbers as scaled integers

    Every binary64 value, and every exact sum, difference and product of
    two of them, is an integer multiple of [2^(-bias)].  The definitions
    below describe rounding to nearest (ties to even) on such scaled
    integers; the lemmas of the next part show that this is what
    [SpecFloat]'s shift-and-round procedure computes. *)

Module B64.

Local Open Scope Z_scope.

Definition bias : Z := 2148.

(** [rne V k]: the integer nearest to [V / 2^k], ties going to the even one. *)
Definition rne (V k : Z) : Z :=
  let q := V / 2 ^ k in
  match 2 * (V mod 2 ^ k) ?= 2 ^ k with
  | Lt => q
  | Gt => q + 1
  | Eq => if Z.even q then q else q + 1
  end.

(** The exponent (biased) of the binary64 grid around a scaled value:
    53 significant bits, and nothing finer than [2^(-1074)]. *)
Definition cexp (V : Z) : Z := Z.max (Zdigits2 V - 53) (bias - 1074).

(** The scaled value rounded to the binary64 grid. *)
Definition rnd (V : Z) : Z := rne V (cexp V) * 2 ^ cexp V.

(** [+Infinity] sits just above the largest finite value. *)
Definition top : Z := 2 ^ (1024 + bias).

(** The scaled value of a number: its magnitude times [2^bias] (used for
    numbers that are not negative). *)
Definition sv (x : spec_float) : Z :=
  match x with
  | S754_zero _ | S754_nan => 0
  | S754_infinity _ => top
  | S754_finite _ m e => Zpos m * 2 ^ (e + bias)
  end.

(** What rounding can produce: a zero, a finite number or an infinity of
    the requested sign, never NaN. *)
Definition signed (s : bool) (x : spec_float) : Prop :=
  match x with
  | S754_zero s' | S754_infinity s' | S754_finite s' _ _ => s' = s
  | S754_nan => False
  end.

(** Numbers that are neither NaN nor negative: zeros of either sign,
    positive finite numbers and [+Infinity]. *)
Definition nonneg (x : spec_float) : Prop :=
  match x with
  | S754_zero _ => True
  | S754_infinity s | S754_finite s _ _ => s = false
  | S754_nan => False
  end.

(** Numbers that are neither NaN nor positive. *)
Definition nonpos (x : spec_float) : Prop :=
  match x with
  | S754_zero _ => True
  | S754_infinity s | S754_finite s _ _ => s = true
  | S754_nan => False
  end.

(** A well-formed operand or result: not NaN, not negative, canonical. *)
Definition wf (x : spec_float) : Prop :=
  nonneg x /\ valid_binary x = true.

(** Neither NaN nor an infinity. *)
Definition finite_or_zero (x : spec_float) : Prop :=
  match x with
  | S754_zero _ | S754_finite _ _ _ => True
  | _ => False
  end.

(** After [j] one-bit shifts of [m], a shift record holds the quotient,
    and its two flags tell how the remainder compares with half of [2^j]. *)
Definition shr_inv (m j : Z) (mrs : shr_record) : Prop :=
  exists rem,
    0 <= rem < 2 ^ j /\ m = shr_m mrs * 2 ^ j + rem /\
    (shr_r mrs = true <-> 2 ^ j <= 2 * rem) /\
    (shr_s mrs = true <-> rem <> 0 /\ 2 * rem <> 2 ^ j).

(** The last step of [binary_round_aux]: renormalise the rounded mantissa
    and detect overflow. *)
Definition finish (m2 c : Z) : spec_float :=
  let '(mrs, e) := shr_fexp prec emax m2 c loc_Exact in
  match shr_m mrs with
  | Z0 => S754_zero false
  | Zpos m => if e <=? emax - prec then S754_finite false m e else S754_infinity false
  | Zneg _ => S754_nan
  end.

End B64.
Import B64.

(** Closes the arithmetic and the flag equivalences of [shr_inv]. *)
Ltac shr_inv_close :=
  repeat split; try lia; intros; try discriminate; try lia; exfalso; lia.

(** Case analysis on a well-formed number: NaN is impossible and the sign
    of an infinity or of a finite number is known. *)
Ltac wf_sign H :=
  match type of H with
  | wf S754_nan => destruct H as [[] _]
  | wf (S754_infinity ?s) => assert (s = false) by exact (proj1 H); subst s
  | wf (S754_finite ?s _ _) => assert (s = false) by exact (proj1 H); subst s
  | _ => idtac
  end.

(** * Binary64 facts

    ** Order, sign and symmetry, read off [SpecFloat]'s definitions *)

Section Structure.

Lemma SFcompare_antisym (x y : spec_float) :
  SFcompare y x = option_map CompOpp (SFcompare x y).
Proof.
  destruct x as [sx|sx| |sx mx ex], y as [sy|sy| |sy my ey];
    cbn [SFcompare option_map];
    try reflexivity;
    try (destruct sx; reflexivity);
    try (destruct sy; reflexivity);
    try (destruct sx, sy; reflexivity).
  change (Pos.compare_cont Eq my mx) with (Pos.compare_cont (CompOpp Eq) my mx).
  rewrite (Z.compare_antisym ex ey), <- (Pos.compare_cont_antisym mx my Eq).
  destruct sx, sy; try reflexivity;
    destruct (ex ?= ey)%Z; cbn [CompOpp]; try reflexivity.
Qed.

Lemma SFcompare_refl (x : spec_float) :
  x <> S754_nan -> SFcompare x x = Some Eq.
Proof.
  destruct x as [s|s| |s m e]; cbn [SFcompare]; intros H;
    try reflexivity; try congruence.
  - destruct s; reflexivity.
  - destruct s; rewrite Z.compare_refl, Pos.compare_cont_refl; reflexivity.
Qed.

Lemma SFcompare_None (x y : spec_float) :
  SFcompare x y = None -> x = S754_nan \/ y = S754_nan.
Proof.
  destruct x as [sx|sx| |sx mx ex], y as [sy|sy| |sy my ey];
    cbn [SFcompare]; auto; discriminate.
Qed.

(** The mantissa of a shift record never turns negative. *)
Lemma shr_1_nonneg mrs : (0 <= shr_m mrs)%Z -> (0 <= shr_m (shr_1 mrs))%Z.
Proof.
  destruct mrs as [m r s]; cbn [shr_m shr_1].
  destruct m as [|[q|q|]|[q|q|]]; cbn [shr_m]; lia.
Qed.

Lemma iter_pos_invariant {T : Type} (P : T -> Prop) (f : T -> T) :
  (forall x, P x -> P (f x)) ->
  forall n x, P x -> P (iter_pos f n x).
Proof.
  intros Hf; induction n as [n IH|n IH|]; intros x Hx; cbn [iter_pos]; auto.
Qed.

Lemma shr_nonneg mrs e n :
  (0 <= shr_m mrs)%Z -> (0 <= shr_m (fst (shr mrs e n)))%Z.
Proof.
  intros H; destruct n as [|n|n]; cbn [shr fst]; auto.
  apply (iter_pos_invariant (fun r => 0 <= shr_m r)%Z); auto using shr_1_nonneg.
Qed.

Lemma shr_fexp_nonneg m e l :
  (0 <= m)%Z -> (0 <= shr_m (fst (shr_fexp prec emax m e l)))%Z.
Proof.
  intros H; unfold shr_fexp; apply shr_nonneg.
  destruct l as [|[ | | ]]; cbn [shr_record_of_loc shr_m]; exact H.
Qed.

Lemma round_nearest_even_nonneg m l :
  (0 <= m)%Z -> (0 <= round_nearest_even m l)%Z.
Proof.
  intros H; destruct l as [|[ | | ]]; cbn [round_nearest_even];
    try destruct (Z.even m); lia.
Qed.

(** Rounding a non-negative mantissa gives a number of the requested sign. *)
Lemma binary_round_aux_signed sx mx ex lx :
  (0 <= mx)%Z -> signed sx (binary_round_aux prec emax sx mx ex lx).
Proof.
  intros H; unfold binary_round_aux.
  pose proof (shr_fexp_nonneg mx ex lx H) as H1.
  destruct (shr_fexp prec emax mx ex lx) as [mrs' e']; cbn [fst] in H1.
  pose proof (shr_fexp_nonneg _ e' loc_Exact
                (round_nearest_even_nonneg _ (loc_of_shr_record mrs') H1)) as H2.
  destruct (shr_fexp prec emax _ e' loc_Exact) as [mrs'' e'']; cbn [fst] in H2.
  destruct (shr_m mrs'') as [|q|q]; [reflexivity| |lia].
  destruct (e'' <=? emax - prec)%Z; reflexivity.
Qed.

(** The sign handed to the rounding procedure only decorates its result. *)
Lemma binary_round_aux_abs sx mx ex lx :
  SFabs (binary_round_aux prec emax sx mx ex lx) =
  SFabs (binary_round_aux prec emax false mx ex lx).
Proof.
  unfold binary_round_aux.
  destruct (shr_fexp prec emax mx ex lx) as [mrs' e'].
  destruct (shr_fexp prec emax _ e' loc_Exact) as [mrs'' e''].
  destruct (shr_m mrs''); try reflexivity.
  destruct (e'' <=? emax - prec)%Z; reflexivity.
Qed.

Lemma binary_normalize_abs_opp m e :
  SFabs (binary_normalize prec emax (- m) e false) =
  SFabs (binary_normalize prec emax m e false).
Proof.
  destruct m as [|q|q]; cbn [Z.opp binary_normalize]; try reflexivity;
    unfold binary_round; destruct (shl_align q e _) as [mz ez];
    rewrite (binary_round_aux_abs true); reflexivity.
Qed.

(** [|x - y|] and [|y - x|] are the same number, NaN included. *)
Lemma SFsub_abs_sym (x y : spec_float) :
  SFabs (SFsub prec emax x y) = SFabs (SFsub prec emax y x).
Proof.
  destruct x as [sx|sx| |sx mx ex], y as [sy|sy| |sy my ey];
    cbn [SFsub SFabs]; try reflexivity;
    try (destruct sx, sy; reflexivity).
  rewrite (Z.min_comm ey ex), <- binary_normalize_abs_opp.
  f_equal; f_equal; lia.
Qed.



Lemma signed_nonneg (x : spec_float) : signed false x -> nonneg x.
Proof. destruct x; cbn; auto. Qed.

Lemma nonneg_leb (x y : spec_float) :
  nonneg x -> SFleb x y = true -> nonneg y.
Proof.
  unfold SFleb.
  destruct x as [sx|sx| |sx mx ex], y as [sy|sy| |sy my ey];
    cbn [nonneg SFcompare]; try contradiction; try discriminate; auto;
    try (intros ->); try (destruct sy; (discriminate || reflexivity)).
Qed.

Lemma SFdiv_nonneg (x : spec_float) (my : positive) (ey : Z) :
  nonneg x -> nonneg (SFdiv prec emax x (S754_finite false my ey)).
Proof.
  destruct x as [s|s| |s m e]; cbn [nonneg SFdiv]; auto.
  - intros ->; reflexivity.
  - intros ->. cbn [xorb].
    unfold SFdiv_core_binary.
    set (sh := (e - ey - _)%Z).
    set (m' := match sh with
               | Z0 => Zpos m
               | Zpos _ => Z.shiftl (Zpos m) sh
               | Zneg _ => 0%Z
               end).
    assert (0 <= m')%Z as Hm'.
    { subst m'. destruct sh; try lia. apply Z.shiftl_nonneg. lia. }
    pose proof (Z.div_pos m' (Zpos my) Hm' ltac:(lia)) as Hq.
    unfold Z.div in Hq.
    destruct (Z.div_eucl m' (Zpos my)) as [q r]. cbn [fst] in Hq.
    apply signed_nonneg, binary_round_aux_signed, Hq.
Qed.

Lemma SFmul_nonneg (mx : positive) (ex : Z) (y : spec_float) :
  nonneg y -> nonneg (SFmul prec emax (S754_finite false mx ex) y).
Proof.
  destruct y as [s|s| |s m e]; cbn [nonneg SFmul]; auto; intros ->.
  apply signed_nonneg, binary_round_aux_signed. lia.
Qed.

End Structure.

(** ** The same facts on primitive numbers *)

Section Primitive.


Lemma is_nan_spec (x : float) :
  is_nan x = match Prim2SF x with S754_nan => true | _ => false end.
Proof.
  unfold is_nan. rewrite FloatAxioms.eqb_spec. unfold SFeqb.
  destruct (Prim2SF x) as [s|s| |s m e] eqn:E; try reflexivity;
    rewrite SFcompare_refl by discriminate; reflexivity.
Qed.

Lemma ltb_asym (x y : float) : (x <? y) = true -> (y <? x) = false.
Proof.
  rewrite !FloatAxioms.ltb_spec. unfold SFltb.
  rewrite (SFcompare_antisym (Prim2SF x) (Prim2SF y)).
  destruct (SFcompare (Prim2SF x) (Prim2SF y)) as [[ | | ]|];
    cbn [option_map CompOpp]; congruence.
Qed.

Lemma ltb_leb (x y : float) : (x <? y) = true -> (x <=? y) = true.
Proof.
  rewrite FloatAxioms.ltb_spec, FloatAxioms.leb_spec. unfold SFltb, SFleb.
  destruct (SFcompare (Prim2SF x) (Prim2SF y)) as [[ | | ]|]; congruence.
Qed.

Lemma leb_refl (x : float) : is_nan x = false -> (x <=? x) = true.
Proof.
  rewrite is_nan_spec, FloatAxioms.leb_spec. unfold SFleb. intros H.
  rewrite SFcompare_refl; [reflexivity|].
  intros E; rewrite E in H; discriminate.
Qed.

(** Without NaN, [x] not below [y] puts [y] at or below [x]. *)
Lemma leb_of_not_ltb (x y : float) :
  is_nan x = false -> is_nan y = false ->
  (x <? y) = false -> (y <=? x) = true.
Proof.
  rewrite !is_nan_spec, FloatAxioms.ltb_spec, FloatAxioms.leb_spec.
  unfold SFltb, SFleb. intros Hx Hy.
  rewrite (SFcompare_antisym (Prim2SF x) (Prim2SF y)).
  destruct (SFcompare (Prim2SF x) (Prim2SF y)) as [[ | | ]|] eqn:Hc;
    cbn [option_map CompOpp]; try congruence.
  apply SFcompare_None in Hc. destruct Hc as [E|E]; rewrite E in *; discriminate.
Qed.

Lemma Math_max_ge_r (x y : float) :
  is_nan x = false -> is_nan y = false -> (y <=? Math_max x y) = true.
Proof.
  intros Hx Hy. unfold Math_max. rewrite Hx, Hy. cbn [orb].
  destruct (x <? y) eqn:E1; [now apply leb_refl|].
  destruct (y <? x) eqn:E2; [now apply ltb_leb|].
  destruct (get_sign x); [now apply leb_refl|].
  now apply leb_of_not_ltb.
Qed.

Lemma leb_0_nonneg (x : float) : (0 <=? x) = true -> nonneg (Prim2SF x).
Proof.
  rewrite FloatAxioms.leb_spec. intros H.
  exact (nonneg_leb (S754_zero false) _ I H).
Qed.

Lemma nonneg_not_nan (x : float) : nonneg (Prim2SF x) -> is_nan x = false.
Proof.
  rewrite is_nan_spec. destruct (Prim2SF x); cbn; auto; contradiction.
Qed.

Lemma is_zero_spec (t : float) :
  is_zero t = true -> exists s, Prim2SF t = S754_zero s.
Proof.
  unfold is_zero. rewrite FloatAxioms.eqb_spec. unfold SFeqb.
  change (Prim2SF zero) with (S754_zero false).
  destruct (Prim2SF t) as [s|[|]| |[|] m e]; cbn [SFcompare]; try discriminate.
  eauto.
Qed.

Lemma ltb_0_pos (x : float) :
  (0 <? x) = true ->
  match Prim2SF x with
  | S754_infinity false | S754_finite false _ _ => True
  | _ => False
  end.
Proof.
  rewrite FloatAxioms.ltb_spec. unfold SFltb.
  change (Prim2SF 0) with (S754_zero false).
  destruct (Prim2SF x) as [s|[|]| |[|] m e]; cbn [SFcompare]; auto; discriminate.
Qed.

Lemma is_finite_spec (x : float) :
  is_finite x = true -> finite_or_zero (Prim2SF x).
Proof.
  unfold is_finite, is_infinity.
  rewrite is_nan_spec, FloatAxioms.eqb_spec, abs_spec. unfold SFeqb.
  change (Prim2SF infinity) with (S754_infinity false).
  destruct (Prim2SF x) as [s|s| |s m e]; cbn; auto; discriminate.
Qed.

Lemma Math_floor_infinite (x : float) :
  abs x = infinity -> Math_floor x = x.
Proof.
  intros H. unfold Math_floor.
  assert (Prim2SF (abs x) = S754_infinity false) as E by (rewrite H; reflexivity).
  rewrite abs_spec in E.
  destruct (Prim2SF x); cbn [SFabs] in E; try discriminate; reflexivity.
Qed.


(** Zero times a finite number, in either order, is a zero. *)
Lemma zero_mul_finite (f : float) : is_finite f = true -> is_zero (0 * f) = true.
Proof.
  intros Hf. apply is_finite_spec in Hf.
  unfold is_zero. rewrite FloatAxioms.eqb_spec, mul_spec. unfold SF64mul.
  change (Prim2SF 0) with (S754_zero false).
  destruct (Prim2SF f) as [s|s| |s m e]; try contradiction; reflexivity.
Qed.

Lemma finite_mul_zero (f : float) : is_finite f = true -> is_zero (f * 0) = true.
Proof.
  intros Hf. apply is_finite_spec in Hf.
  unfold is_zero. rewrite FloatAxioms.eqb_spec, mul_spec. unfold SF64mul.
  change (Prim2SF 0) with (S754_zero false).
  destruct (Prim2SF f) as [s|s| |s m e]; try contradiction; reflexivity.
Qed.


End Primitive.

(** ** Rounding to nearest, ties to even, on scaled integers *)

Section RoundingArithmetic.

Local Open Scope Z_scope.

Lemma pow2_pos k : 0 <= k -> 0 < 2 ^ k.
Proof. intros; apply Z.pow_pos_nonneg; lia. Qed.

Lemma pow2_le j k : 0 <= j <= k -> 2 ^ j <= 2 ^ k.
Proof. intros; apply Z.pow_le_mono_r; lia. Qed.

Lemma pow2_split j k : 0 <= j <= k -> 2 ^ k = 2 ^ (k - j) * 2 ^ j.
Proof. intros; rewrite <- Z.pow_add_r by lia; f_equal; lia. Qed.

Section Rne.
Variable k : Z.
Hypothesis Hk : 0 <= k.

Lemma rne_cases V :
  (rne V k = V / 2 ^ k /\ 2 * (V mod 2 ^ k) <= 2 ^ k) \/
  (rne V k = V / 2 ^ k + 1 /\ 2 ^ k <= 2 * (V mod 2 ^ k)).
Proof.
  unfold rne. destruct (Z.compare_spec (2 * (V mod 2 ^ k)) (2 ^ k)) as [E|E|E].
  - destruct (Z.even (V / 2 ^ k)); [left|right]; lia.
  - left; lia.
  - right; lia.
Qed.

Lemma rne_exact V : V mod 2 ^ k = 0 -> rne V k = V / 2 ^ k.
Proof.
  intros E. unfold rne. rewrite E. pose proof (pow2_pos k Hk).
  destruct (Z.compare_spec (2 * 0) (2 ^ k)); lia.
Qed.

Lemma rne_mul G : rne (G * 2 ^ k) k = G.
Proof.
  pose proof (pow2_pos k Hk).
  rewrite rne_exact; [apply Z.div_mul | apply Z.mod_mul]; lia.
Qed.

Lemma rne_ge_grid V G : G * 2 ^ k <= V -> G <= rne V k.
Proof.
  intros H. pose proof (pow2_pos k Hk) as HP.
  assert (G <= V / 2 ^ k) by (apply Z.div_le_lower_bound; lia).
  destruct (rne_cases V) as [[-> _]|[-> _]]; lia.
Qed.

Lemma rne_le_grid V G : V <= G * 2 ^ k -> rne V k <= G.
Proof.
  intros H. pose proof (pow2_pos k Hk) as HP.
  pose proof (Z.div_mod V (2 ^ k) ltac:(lia)) as HV.
  pose proof (Z.mod_pos_bound V (2 ^ k) HP) as Hr.
  destruct (Z.eq_dec (V mod 2 ^ k) 0) as [E|E].
  - rewrite rne_exact by exact E. nia.
  - assert (V / 2 ^ k < G) by nia.
    destruct (rne_cases V) as [[-> _]|[-> _]]; lia.
Qed.

Lemma rne_mono V1 V2 : V1 <= V2 -> rne V1 k <= rne V2 k.
Proof.
  intros H. pose proof (pow2_pos k Hk) as HP.
  pose proof (Z.div_mod V1 (2 ^ k) ltac:(lia)) as HV1.
  pose proof (Z.mod_pos_bound V1 (2 ^ k) HP) as Hr1.
  pose proof (Z.div_mod V2 (2 ^ k) ltac:(lia)) as HV2.
  pose proof (Z.mod_pos_bound V2 (2 ^ k) HP) as Hr2.
  assert (V1 / 2 ^ k <= V2 / 2 ^ k) as Hq by (apply Z.div_le_mono; lia).
  destruct (Z.eq_dec (V1 / 2 ^ k) (V2 / 2 ^ k)) as [E|E].
  - assert (V1 mod 2 ^ k <= V2 mod 2 ^ k) by nia.
    unfold rne. rewrite E.
    destruct (Z.compare_spec (2 * (V1 mod 2 ^ k)) (2 ^ k));
      destruct (Z.compare_spec (2 * (V2 mod 2 ^ k)) (2 ^ k));
      destruct (Z.even (V2 / 2 ^ k)); lia.
  - destruct (rne_cases V1) as [[-> _]|[-> _]];
      destruct (rne_cases V2) as [[-> _]|[-> _]]; lia.
Qed.

End Rne.

(** Number of binary digits. *)

Lemma digits2_pos_bounds (p : positive) :
  2 ^ (Zpos (digits2_pos p) - 1) <= Zpos p < 2 ^ Zpos (digits2_pos p).
Proof.
  induction p as [p IH|p IH|]; cbn [digits2_pos].
  - rewrite Pos2Z.inj_succ, (Pos2Z.inj_xI p).
    replace (Z.succ (Zpos (digits2_pos p)) - 1) with (Z.succ (Zpos (digits2_pos p) - 1)) by lia.
    rewrite !Z.pow_succ_r by lia. lia.
  - rewrite Pos2Z.inj_succ, (Pos2Z.inj_xO p).
    replace (Z.succ (Zpos (digits2_pos p)) - 1) with (Z.succ (Zpos (digits2_pos p) - 1)) by lia.
    rewrite !Z.pow_succ_r by lia. lia.
  - cbn. lia.
Qed.

Lemma Zdigits2_nonneg V : 0 <= Zdigits2 V.
Proof. destruct V; cbn; lia. Qed.

Lemma Zdigits2_bounds V :
  0 < V -> 2 ^ (Zdigits2 V - 1) <= V < 2 ^ Zdigits2 V.
Proof.
  destruct V as [|p|p]; try lia. intros _. apply digits2_pos_bounds.
Qed.

Lemma Zdigits2_unique V d :
  2 ^ (d - 1) <= V < 2 ^ d -> 0 < d -> Zdigits2 V = d.
Proof.
  intros [H1 H2] Hd.
  assert (0 < V) as HV by (pose proof (pow2_pos (d - 1)); lia).
  pose proof (Zdigits2_bounds V HV) as [H3 H4].
  pose proof (Zdigits2_nonneg V) as H0.
  assert (Zdigits2 V - 1 < d).
  { apply (Z.pow_lt_mono_r_iff 2); lia. }
  assert (d - 1 < Zdigits2 V).
  { apply (Z.pow_lt_mono_r_iff 2); lia. }
  lia.
Qed.

Lemma Zdigits2_mono V1 V2 : 0 <= V1 <= V2 -> Zdigits2 V1 <= Zdigits2 V2.
Proof.
  intros [H0 H].
  destruct (Z.eq_dec V1 0) as [->|N]; [apply Zdigits2_nonneg|].
  pose proof (Zdigits2_bounds V1 ltac:(lia)) as [H1 _].
  pose proof (Zdigits2_bounds V2 ltac:(lia)) as [_ H2].
  pose proof (Zdigits2_nonneg V2).
  assert (Zdigits2 V1 - 1 < Zdigits2 V2); [|lia].
  apply (Z.pow_lt_mono_r_iff 2); lia.
Qed.

Lemma Zdigits2_shift V k :
  0 < V -> 0 <= k -> Zdigits2 (V * 2 ^ k) = Zdigits2 V + k.
Proof.
  intros HV Hk. pose proof (Zdigits2_bounds V HV) as [H1 H2].
  assert (0 < Zdigits2 V) as Hd.
  { destruct V; cbn; lia. }
  pose proof (pow2_pos k Hk).
  apply Zdigits2_unique; [|lia].
  replace (Zdigits2 V + k - 1) with (Zdigits2 V - 1 + k) by lia.
  rewrite !Z.pow_add_r by lia. nia.
Qed.

Lemma Zdigits2_lt_pow V d : 0 <= V < 2 ^ d -> 0 <= d -> Zdigits2 V <= d.
Proof.
  intros [H0 H] Hd.
  destruct (Z.eq_dec V 0) as [->|N]; [cbn; lia|].
  pose proof (Zdigits2_bounds V ltac:(lia)) as [H1 _].
  assert (Zdigits2 V - 1 < d); [|lia].
  apply (Z.pow_lt_mono_r_iff 2); lia.
Qed.

Lemma Zdigits2_ge_pow V d : 2 ^ d <= V -> 0 <= d -> d < Zdigits2 V.
Proof.
  intros H Hd. pose proof (pow2_pos d Hd).
  pose proof (Zdigits2_bounds V ltac:(lia)) as [_ H2].
  apply (Z.pow_lt_mono_r_iff 2); [lia| |lia]. apply Zdigits2_nonneg.
Qed.

(** The grid exponent and the rounding function. *)

Lemma cexp_nonneg V : 0 <= cexp V.
Proof. unfold cexp, bias. lia. Qed.

Lemma cexp_mono V1 V2 : 0 <= V1 <= V2 -> cexp V1 <= cexp V2.
Proof. intros H. pose proof (Zdigits2_mono V1 V2 H). unfold cexp. lia. Qed.

Lemma rnd_nonneg V : 0 <= V -> 0 <= rnd V.
Proof.
  intros H. unfold rnd. pose proof (cexp_nonneg V) as Hk.
  pose proof (pow2_pos _ Hk).
  pose proof (rne_ge_grid (cexp V) Hk V 0 ltac:(lia)). nia.
Qed.

(** Rounding is monotone, also across a change of grid step. *)
Lemma rnd_mono V1 V2 : 0 <= V1 <= V2 -> rnd V1 <= rnd V2.
Proof.
  intros H. unfold rnd.
  pose proof (cexp_nonneg V1) as Hk1. pose proof (cexp_nonneg V2) as Hk2.
  pose proof (cexp_mono V1 V2 H) as Hk.
  destruct (Z.eq_dec (cexp V1) (cexp V2)) as [E|E].
  - rewrite E. pose proof (pow2_pos _ Hk2).
    pose proof (rne_mono (cexp V2) Hk2 V1 V2 ltac:(lia)). nia.
  - (* The larger value lies in a higher binade: compare both with the
       power of two that separates them. *)
    set (d2 := Zdigits2 V2).
    assert (cexp V2 = d2 - 53 /\ Zdigits2 V1 < d2) as [E2 Hd].
    { unfold cexp in *. fold d2 in Hk, E |- *. lia. }
    assert (0 < V2) as HV2.
    { destruct V2; try lia. subst d2. cbn in Hd. pose proof (Zdigits2_nonneg V1). lia. }
    pose proof (Zdigits2_bounds V2 HV2) as [HV2l _]. fold d2 in HV2l.
    assert (V1 < 2 ^ (d2 - 1)) as HV1.
    { destruct (Z.eq_dec V1 0) as [->|N]; [apply pow2_pos; unfold cexp, bias in *; lia|].
      pose proof (Zdigits2_bounds V1 ltac:(lia)) as [_ HV1u].
      pose proof (pow2_le (Zdigits2 V1) (d2 - 1)).
      pose proof (Zdigits2_nonneg V1). lia. }
    assert (cexp V1 <= d2 - 1 /\ cexp V2 <= d2 - 1) as [L1 L2] by lia.
    pose proof (rne_le_grid (cexp V1) Hk1 V1 (2 ^ (d2 - 1 - cexp V1))) as U.
    pose proof (rne_ge_grid (cexp V2) Hk2 V2 (2 ^ (d2 - 1 - cexp V2))) as L.
    rewrite <- pow2_split in U, L by lia.
    pose proof (pow2_pos _ Hk1). pose proof (pow2_pos _ Hk2).
    specialize (U ltac:(lia)). specialize (L ltac:(lia)).
    rewrite (pow2_split (cexp V1) (d2 - 1)) in HV1 by lia.
    rewrite (pow2_split (cexp V2) (d2 - 1)) in HV2l by lia.
    transitivity (2 ^ (d2 - 1)).
    + rewrite (pow2_split (cexp V1) (d2 - 1)) by lia. nia.
    + rewrite (pow2_split (cexp V2) (d2 - 1)) at 1 by lia. nia.
Qed.

(** A value already on its own grid is left alone. *)
Lemma rnd_on_grid M V : V = M * 2 ^ cexp V -> rnd V = V.
Proof.
  intros E. unfold rnd. rewrite E at 1.
  rewrite rne_mul by apply cexp_nonneg. symmetry; exact E.
Qed.

End RoundingArithmetic.

(** ** What the shift-and-round procedure of [SpecFloat] computes *)

Section ShiftAndRound.

Local Open Scope Z_scope.

Lemma shr_inv_start m : shr_inv m 0 (Build_shr_record m false false).
Proof.
  exists 0. cbn [shr_m shr_r shr_s]. rewrite Z.pow_0_r. shr_inv_close.
Qed.

(** One more shift: the bit that leaves the mantissa joins the remainder. *)
Lemma shr_1_inv m j mrs :
  0 <= j -> 0 <= shr_m mrs ->
  shr_inv m j mrs -> shr_inv m (j + 1) (shr_1 mrs) /\ 0 <= shr_m (shr_1 mrs).
Proof.
  intros Hj Hm (rem & Hrem & Em & Hr & Hs).
  pose proof (pow2_pos j Hj) as HP.
  assert (2 ^ (j + 1) = 2 * 2 ^ j) as E2 by (rewrite Z.pow_add_r by lia; lia).
  destruct mrs as [mc r s]. cbn [shr_m shr_r shr_s] in *.
  assert (orb r s = true <-> rem <> 0) as Hrs.
  { rewrite orb_true_iff, Hr, Hs. lia. }
  destruct mc as [|[q|q|]|q]; try lia;
    cbn [shr_1 shr_m shr_r shr_s]; (split; [|lia]).
  - exists rem. cbn [shr_m shr_r shr_s]. rewrite E2, Hrs. shr_inv_close.
  - exists (rem + 2 ^ j). cbn [shr_m shr_r shr_s]. rewrite E2, Hrs. shr_inv_close.
  - exists rem. cbn [shr_m shr_r shr_s]. rewrite E2, Hrs. shr_inv_close.
  - exists (rem + 2 ^ j). cbn [shr_m shr_r shr_s]. rewrite E2, Hrs. shr_inv_close.
Qed.

Lemma iter_pos_shr_inv m (n : positive) :
  forall j mrs,
    0 <= j -> 0 <= shr_m mrs -> shr_inv m j mrs ->
    shr_inv m (j + Zpos n) (iter_pos shr_1 n mrs) /\
    0 <= shr_m (iter_pos shr_1 n mrs).
Proof.
  induction n as [n IH|n IH|]; intros j mrs Hj Hm H; cbn [iter_pos].
  - destruct (shr_1_inv m j mrs Hj Hm H) as [H1 M1].
    destruct (IH (j + 1) _ ltac:(lia) M1 H1) as [H2 M2].
    destruct (IH (j + 1 + Zpos n) _ ltac:(lia) M2 H2) as [H3 M3].
    split; [|exact M3].
    replace (j + Zpos n~1) with (j + 1 + Zpos n + Zpos n) by lia. exact H3.
  - destruct (IH j _ Hj Hm H) as [H2 M2].
    destruct (IH (j + Zpos n) _ ltac:(lia) M2 H2) as [H3 M3].
    split; [|exact M3].
    replace (j + Zpos n~0) with (j + Zpos n + Zpos n) by lia. exact H3.
  - apply shr_1_inv; assumption.
Qed.

(** Shifting an exact mantissa by [n] bits and rounding the result is
    [rne]. *)
Lemma shr_round_rne (m n : Z) :
  0 <= m -> 0 <= n ->
  let mrs := fst (shr (Build_shr_record m false false) 0 n) in
  round_nearest_even (shr_m mrs) (loc_of_shr_record mrs) = rne m n.
Proof.
  intros Hm Hn. cbv zeta.
  assert (shr_inv m n (fst (shr (Build_shr_record m false false) 0 n)))
    as (rem & Hrem & Em & Hr & Hs).
  { destruct n as [|n|n]; try lia; cbn [shr fst].
    - apply shr_inv_start.
    - apply (iter_pos_shr_inv m n 0); cbn [shr_m]; try lia. apply shr_inv_start. }
  destruct (fst (shr _ 0 n)) as [q r s]. cbn [shr_m shr_r shr_s] in *.
  pose proof (pow2_pos n Hn) as HP.
  assert (m / 2 ^ n = q /\ m mod 2 ^ n = rem) as [Eq Er].
  { apply Z.div_mod_unique with (2 ^ n); try lia.
    - left. apply Z.mod_pos_bound; lia.
    - rewrite <- Z.div_mod by lia. lia. }
  unfold rne. rewrite Eq, Er.
  destruct Hr as [Hr Hr'], Hs as [Hs Hs'].
  destruct r, s; cbn [loc_of_shr_record round_nearest_even];
    destruct (Z.compare_spec (2 * rem) (2 ^ n)) as [E|E|E];
    try reflexivity; exfalso;
    try specialize (Hr eq_refl); try specialize (Hs eq_refl);
    try lia;
    try (assert (false = true) by (apply Hr'; lia); discriminate);
    try (assert (false = true) by (apply Hs'; lia); discriminate).
Qed.

Lemma fexp64 z : fexp prec emax z = Z.max (z - 53) (-1074).
Proof. reflexivity. Qed.

Lemma bounded64 m e :
  bounded prec emax m e = true <->
  Z.max (Zpos (digits2_pos m) + e - 53) (-1074) = e /\ e <= 971.
Proof.
  unfold bounded, canonical_mantissa. rewrite fexp64, andb_true_iff, Z.eqb_eq, Z.leb_le.
  reflexivity.
Qed.

Lemma top_pos : 0 < top.
Proof. apply pow2_pos. unfold bias. lia. Qed.

Lemma sv_nonneg x : 0 <= sv x.
Proof.
  pose proof top_pos.
  destruct x as [s|s| |s m e]; cbn [sv]; lia.
Qed.

Lemma binary_round_aux_finish m e l :
  binary_round_aux prec emax false m e l =
  finish (round_nearest_even (shr_m (fst (shr_fexp prec emax m e l)))
            (loc_of_shr_record (fst (shr_fexp prec emax m e l))))
         (snd (shr_fexp prec emax m e l)).
Proof.
  unfold binary_round_aux, finish.
  destruct (shr_fexp prec emax m e l) as [mrs' e']. reflexivity.
Qed.

(** A canonical pair with a large exponent has a full mantissa. *)
Lemma canonical_value_bounds (m : positive) (e : Z) :
  - bias <= e ->
  Z.max (Zpos (digits2_pos m) + e - 53) (-1074) = e ->
  (e <= 971 -> Zpos m * 2 ^ (e + bias) < top) /\
  (971 < e -> top <= Zpos m * 2 ^ (e + bias)).
Proof.
  intros He Hc. pose proof (digits2_pos_bounds m) as [Hl Hu].
  set (d := Zpos (digits2_pos m)) in *.
  pose proof (pow2_pos (e + bias) ltac:(lia)) as HP.
  unfold top. split; intros H.
  - assert (d <= 53) by lia.
    pose proof (pow2_le d 53 ltac:(lia)).
    pose proof (pow2_le (53 + (e + bias)) (1024 + bias) ltac:(unfold bias in *; lia)).
    rewrite Z.pow_add_r in * by (unfold bias in *; lia). nia.
  - assert (d = 53) as Ed by lia. rewrite Ed in Hl.
    pose proof (pow2_le (1024 + bias) (52 + (e + bias)) ltac:(unfold bias in *; lia)).
    rewrite (Z.pow_add_r 2 52) in * by (unfold bias in *; lia).
    change (53 - 1) with 52 in Hl. nia.
Qed.

Lemma finish_canonical (m2 c : Z) :
  0 < m2 -> - bias <= c ->
  Z.max (Zdigits2 m2 + c - 53) (-1074) = c ->
  wf (finish m2 c) /\ sv (finish m2 c) = Z.min (m2 * 2 ^ (c + bias)) top.
Proof.
  intros Hm Hb Hc. unfold finish, shr_fexp. rewrite fexp64, Hc, Z.sub_diag.
  cbn [shr shr_record_of_loc shr_m].
  destruct m2 as [|m|m]; try lia. cbn [Zdigits2] in Hc.
  destruct (canonical_value_bounds m c Hb Hc) as [Hfin Hinf].
  change (emax - prec) with 971.
  destruct (Z.leb_spec c 971) as [L|L].
  - split; [split; [reflexivity|]|].
    + cbn [valid_binary]. apply bounded64. split; assumption.
    + cbn [sv]. specialize (Hfin L). lia.
  - split; [split; reflexivity|].
    cbn [sv]. specialize (Hinf L). lia.
Qed.

Lemma finish_carry (c : Z) :
  -1074 <= c ->
  wf (finish (2 ^ 53) c) /\ sv (finish (2 ^ 53) c) = Z.min (2 ^ 53 * 2 ^ (c + bias)) top.
Proof.
  intros Hc.
  assert (- bias <= c + 1) as Hb by (unfold bias; lia).
  assert (finish (2 ^ 53) c = finish (2 ^ 52) (c + 1)) as ->.
  { unfold finish, shr_fexp. rewrite !fexp64.
    change (Zdigits2 (2 ^ 53)) with 54. change (Zdigits2 (2 ^ 52)) with 53.
    replace (Z.max (54 + c - 53) (-1074) - c) with 1 by lia.
    replace (Z.max (53 + (c + 1) - 53) (-1074) - (c + 1)) with 0 by lia.
    reflexivity. }
  replace (2 ^ 53 * 2 ^ (c + bias)) with (2 ^ 52 * 2 ^ (c + 1 + bias)).
  - apply finish_canonical; try lia. change (Zdigits2 (2 ^ 52)) with 53. lia.
  - replace (c + 1 + bias) with (1 + (c + bias)) by lia.
    rewrite (Z.pow_add_r 2 1) by (unfold bias; lia). change (2 ^ 53) with (2 ^ 52 * 2 ^ 1). ring.
Qed.

Lemma shr_fst_snd mrs e n :
  0 <= n -> snd (shr mrs e n) = e + n /\ fst (shr mrs e n) = fst (shr mrs 0 n).
Proof.
  intros Hn. destruct n as [|n|n]; try lia; cbn [shr fst snd]; split; auto; lia.
Qed.

Lemma rne_scale m n s : 0 <= n -> 0 <= s -> rne (m * 2 ^ s) (n + s) = rne m n.
Proof.
  intros Hn Hs. unfold rne.
  pose proof (pow2_pos n Hn) as HN. pose proof (pow2_pos s Hs) as HS.
  rewrite Z.pow_add_r, Z.div_mul_cancel_r, Z.mul_mod_distr_r by lia.
  destruct (Z.compare_spec (2 * (m mod 2 ^ n)) (2 ^ n));
    destruct (Z.compare_spec (2 * (m mod 2 ^ n * 2 ^ s)) (2 ^ n * 2 ^ s));
    try reflexivity; nia.
Qed.

(** Rounding an exact positive mantissa: the result is canonical and its
    value is the rounded value, or [+Infinity] from [top] on. *)
Lemma binary_round_aux_spec (p : positive) (e : Z) :
  - bias <= e -> e <= fexp prec emax (Zpos (digits2_pos p) + e) ->
  let r := binary_round_aux prec emax false (Zpos p) e loc_Exact in
  wf r /\ sv r = Z.min (rnd (Zpos p * 2 ^ (e + bias))) top.
Proof.
  intros Hb He. cbv zeta.
  rewrite fexp64 in He.
  pose proof (digits2_pos_bounds p) as [Hl Hu].
  set (d := Zpos (digits2_pos p)) in *.
  set (c := Z.max (d + e - 53) (-1074)) in *.
  assert (0 <= c - e) as Hn by lia.
  assert (binary_round_aux prec emax false (Zpos p) e loc_Exact =
          finish (rne (Zpos p) (c - e)) c) as ->.
  { rewrite binary_round_aux_finish. unfold shr_fexp.
    cbn [Zdigits2 shr_record_of_loc]. rewrite fexp64. fold d c.
    destruct (shr_fst_snd (Build_shr_record (Zpos p) false false) e (c - e) Hn) as [-> ->].
    rewrite (shr_round_rne (Zpos p) (c - e)) by lia.
    f_equal. lia. }
  set (V := Zpos p * 2 ^ (e + bias)).
  pose proof (pow2_pos (e + bias) ltac:(lia)) as HS.
  assert (cexp V = c + bias) as Ec.
  { unfold cexp, V. rewrite Zdigits2_shift by lia. cbn [Zdigits2]. fold d. lia. }
  assert (rnd V = rne (Zpos p) (c - e) * 2 ^ (c + bias)) as ->.
  { unfold rnd. rewrite Ec. f_equal. unfold V.
    replace (c + bias) with (c - e + (e + bias)) by lia. apply rne_scale; lia. }
  set (m2 := rne (Zpos p) (c - e)).
  assert (0 <= m2 <= 2 ^ 53) as [H0 H53].
  { split.
    - apply rne_ge_grid; lia.
    - apply rne_le_grid; [lia|].
      rewrite <- Z.pow_add_r by lia.
      pose proof (pow2_le d (53 + (c - e)) ltac:(lia)). lia. }
  assert (-1074 < c -> 2 ^ 52 <= m2) as H52.
  { intros Hc. apply rne_ge_grid; [lia|].
    rewrite <- Z.pow_add_r by lia.
    replace (52 + (c - e)) with (d - 1) by lia. exact Hl. }
  destruct (Z.eq_dec m2 0) as [E0|N0].
  - (* the value rounds to zero *)
    rewrite E0. assert (c = -1074) as Ec0.
    { destruct (Z.eq_dec c (-1074)); [assumption|].
      specialize (H52 ltac:(lia)). pose proof (pow2_pos 52). lia. }
    rewrite Ec0. pose proof top_pos.
    change (finish 0 (-1074)) with (S754_zero false).
    cbn [sv]. repeat split.
  - destruct (Z.eq_dec m2 (2 ^ 53)) as [E53|N53].
    + rewrite E53. apply finish_carry. lia.
    + apply finish_canonical; try lia.
      assert (Zdigits2 m2 <= 53) by (apply Zdigits2_lt_pow; lia).
      destruct (Z.eq_dec c (-1074)); [lia|].
      specialize (H52 ltac:(lia)).
      pose proof (Zdigits2_ge_pow m2 52 H52 ltac:(lia)). lia.
Qed.

End ShiftAndRound.

(** ** Well-formed numbers: order and arithmetic through scaled values *)

Section WellFormed.

Local Open Scope Z_scope.

Lemma wf_finite_inv s m e :
  wf (S754_finite s m e) ->
  s = false /\ Z.max (Zpos (digits2_pos m) + e - 53) (-1074) = e /\ e <= 971.
Proof.
  intros [Hs Hv]. cbn [nonneg valid_binary] in *. apply bounded64 in Hv. tauto.
Qed.

Lemma wf_finite_lt_top s m e : wf (S754_finite s m e) -> 0 < sv (S754_finite s m e) < top.
Proof.
  intros H. apply wf_finite_inv in H. destruct H as (_ & Hc & He).
  assert (- bias <= e) as Hb by (unfold bias; lia).
  destruct (canonical_value_bounds m e Hb Hc) as [Hlt _].
  pose proof (pow2_pos (e + bias) ltac:(lia)).
  cbn [sv]. split; [nia | auto].
Qed.

Lemma canonical_lt (m1 m2 : positive) (e1 e2 : Z) :
  Z.max (Zpos (digits2_pos m1) + e1 - 53) (-1074) = e1 ->
  Z.max (Zpos (digits2_pos m2) + e2 - 53) (-1074) = e2 ->
  e1 < e2 ->
  Zpos m1 * 2 ^ (e1 + bias) < Zpos m2 * 2 ^ (e2 + bias).
Proof.
  intros H1 H2 He.
  pose proof (digits2_pos_bounds m1) as [_ U1].
  pose proof (digits2_pos_bounds m2) as [L2 _].
  assert (Zpos (digits2_pos m2) = 53) as E2 by lia. rewrite E2 in L2.
  change (53 - 1) with 52 in L2.
  assert (Zpos (digits2_pos m1) <= 53) as D1 by lia.
  pose proof (pow2_le (Zpos (digits2_pos m1)) 53 ltac:(lia)).
  assert (0 <= e1 + bias) as Hb by (unfold bias; lia).
  pose proof (pow2_pos (e1 + bias) Hb).
  pose proof (pow2_le (1 + (e1 + bias)) (e2 + bias) ltac:(lia)) as HP.
  rewrite Z.pow_add_r in HP by lia. change (2 ^ 1) with 2 in HP.
  change (2 ^ 53) with (2 * 2 ^ 52) in *. nia.
Qed.

Lemma wf_compare x y :
  wf x -> wf y -> SFcompare x y = Some (sv x ?= sv y).
Proof.
  intros Hx Hy. pose proof top_pos as HT.
  destruct x as [sx|sx| |sx mx ex], y as [sy|sy| |sy my ey];
    try (destruct Hx as [Hx _]; contradiction);
    try (destruct Hy as [Hy _]; contradiction);
    try (pose proof (wf_finite_lt_top _ _ _ Hx));
    try (pose proof (wf_finite_lt_top _ _ _ Hy));
    try (apply wf_finite_inv in Hx; destruct Hx as (-> & Cx & Bx));
    try (apply wf_finite_inv in Hy; destruct Hy as (-> & Cy & By));
    try (destruct Hx as [Hx _]; cbn [nonneg] in Hx; try subst sx);
    try (destruct Hy as [Hy _]; cbn [nonneg] in Hy; try subst sy);
    cbn [SFcompare]; f_equal; symmetry;
    try (apply Z.compare_eq_iff; cbn [sv]; lia);
    try (apply Z.compare_lt_iff; cbn [sv] in *; lia);
    try (apply Z.compare_gt_iff; cbn [sv] in *; lia).
  destruct (Z.compare_spec ex ey) as [E|L|G].
  - subst ey. cbn [sv]. change (Pos.compare_cont Eq mx my) with (Pos.compare mx my).
    pose proof (pow2_pos (ex + bias) ltac:(unfold bias; lia)).
    destruct (Pos.compare_spec mx my);
      [apply Z.compare_eq_iff|apply Z.compare_lt_iff|apply Z.compare_gt_iff]; nia.
  - apply Z.compare_lt_iff. cbn [sv]. now apply canonical_lt.
  - apply Z.compare_gt_iff. cbn [sv]. now apply canonical_lt.
Qed.

Lemma wf_leb x y : wf x -> wf y -> (SFleb x y = true <-> sv x <= sv y).
Proof.
  intros Hx Hy. unfold SFleb. rewrite (wf_compare x y Hx Hy).
  destruct (Z.compare_spec (sv x) (sv y)); split; intros; try lia; try reflexivity; discriminate.
Qed.

Lemma wf_ltb x y : wf x -> wf y -> (SFltb x y = true <-> sv x < sv y).
Proof.
  intros Hx Hy. unfold SFltb. rewrite (wf_compare x y Hx Hy).
  destruct (Z.compare_spec (sv x) (sv y)); split; intros; try lia; try reflexivity; discriminate.
Qed.

Lemma wf_not_inf x : wf x -> sv x < top -> forall s, x <> S754_infinity s.
Proof. intros _ H s ->. cbn [sv] in H. lia. Qed.

Lemma iter_xO_pow (m d : positive) :
  Zpos (Pos.iter xO m d) = Zpos m * 2 ^ Zpos d.
Proof.
  induction d as [|d IH] using Pos.peano_ind.
  - cbn [Pos.iter]. lia.
  - rewrite Pos.iter_succ, Pos2Z.inj_succ, Z.pow_succ_r by lia.
    rewrite (Pos2Z.inj_xO (Pos.iter xO m d)), IH. ring.
Qed.

(** Aligning a mantissa to a smaller exponent keeps the value. *)
Lemma shl_align_spec (m : positive) (e e' : Z) :
  let '(m', e'') := shl_align m e e' in
  e'' = Z.min e e' /\ Zpos m' = Zpos m * 2 ^ (e - e'').
Proof.
  unfold shl_align. destruct (e' - e) as [|d|d] eqn:E.
  - split; [lia|]. rewrite Z.sub_diag. lia.
  - split; [lia|]. rewrite Z.sub_diag. lia.
  - split; [lia|]. rewrite iter_xO_pow. f_equal. f_equal. lia.
Qed.

Lemma rnd_0 : rnd 0 = 0.
Proof. reflexivity. Qed.

Lemma binary_round_spec (M : positive) (ez : Z) :
  -1074 <= ez ->
  wf (binary_round prec emax false M ez) /\
  sv (binary_round prec emax false M ez) = Z.min (rnd (Zpos M * 2 ^ (ez + bias))) top.
Proof.
  intros He. unfold binary_round. rewrite fexp64.
  set (t := Z.max (Zpos (digits2_pos M) + ez - 53) (-1074)).
  pose proof (shl_align_spec M ez t) as H.
  destruct (shl_align M ez t) as [mz ez']. destruct H as [E1 E2].
  assert (0 <= ez - ez') as Hd by lia.
  assert (0 <= ez' + bias) as Hb by (unfold bias; lia).
  assert (Zpos M * 2 ^ (ez + bias) = Zpos mz * 2 ^ (ez' + bias)) as ->.
  { rewrite E2, <- Z.mul_assoc, <- Z.pow_add_r by lia. do 2 f_equal. lia. }
  apply binary_round_aux_spec; [lia|].
  rewrite fexp64.
  assert (Zpos (digits2_pos mz) = Zpos (digits2_pos M) + (ez - ez')) as ->.
  { change (Zpos (digits2_pos mz)) with (Zdigits2 (Zpos mz)).
    rewrite E2, Zdigits2_shift by lia. reflexivity. }
  fold t. replace (Zpos (digits2_pos M) + (ez - ez') + ez' - 53)
    with (Zpos (digits2_pos M) + ez - 53) by lia.
  fold t. lia.
Qed.

Lemma binary_normalize_spec (M ez : Z) :
  0 <= M -> -1074 <= ez ->
  wf (binary_normalize prec emax M ez false) /\
  sv (binary_normalize prec emax M ez false) = Z.min (rnd (M * 2 ^ (ez + bias))) top.
Proof.
  intros HM He. destruct M as [|M|M]; try lia; cbn [binary_normalize].
  - rewrite Z.mul_0_l, rnd_0. cbn [sv]. repeat split.
  - now apply binary_round_spec.
Qed.

(** Values that are already binary64 numbers round to themselves. *)
Lemma rnd_wf_finite s m e :
  wf (S754_finite s m e) -> rnd (sv (S754_finite s m e)) = sv (S754_finite s m e).
Proof.
  intros H. apply wf_finite_inv in H. destruct H as (_ & Hc & _).
  cbn [sv]. apply (rnd_on_grid (Zpos m)). f_equal. f_equal.
  unfold cexp. rewrite Zdigits2_shift by (unfold bias; lia). cbn [Zdigits2]. lia.
Qed.

Lemma rnd_top : rnd top = top.
Proof.
  apply (rnd_on_grid (2 ^ 52)).
  assert (Zdigits2 top = 1025 + bias) as E.
  { apply Zdigits2_unique; [|unfold bias; lia].
    unfold top. replace (1025 + bias - 1) with (1024 + bias) by lia.
    split; [lia|]. apply Z.pow_lt_mono_r; unfold bias; lia. }
  unfold cexp. rewrite E. unfold top.
  rewrite <- Z.pow_add_r by (unfold bias; lia). reflexivity.
Qed.

Lemma rnd_ge_top V : top <= V -> top <= rnd V.
Proof.
  intros H. rewrite <- rnd_top. apply rnd_mono. pose proof top_pos. lia.
Qed.

Lemma wf_finite_or_zero x : wf x -> sv x < top -> finite_or_zero x.
Proof.
  intros [Hn _] H. destruct x; cbn in *; auto; lia.
Qed.

Lemma aligned_mantissa (m : positive) (e ez : Z) :
  - bias <= ez <= e ->
  Zpos (fst (shl_align m e ez)) * 2 ^ (ez + bias) = Zpos m * 2 ^ (e + bias).
Proof.
  intros H. pose proof (shl_align_spec m e ez) as S.
  destruct (shl_align m e ez) as [m' e'']. destruct S as [E1 E2]. cbn [fst].
  rewrite E2, <- Z.mul_assoc, <- Z.pow_add_r by lia. do 2 f_equal. lia.
Qed.

Lemma wf_zero s : wf (S754_zero s).
Proof. split; reflexivity. Qed.

Lemma wf_inf : wf (S754_infinity false).
Proof. split; reflexivity. Qed.

Lemma min_top_of_ge V : top <= V -> Z.min (rnd V) top = top.
Proof. intros H. pose proof (rnd_ge_top V H). lia. Qed.

Lemma min_top_finite s m e :
  wf (S754_finite s m e) ->
  Z.min (rnd (sv (S754_finite s m e))) top = sv (S754_finite s m e).
Proof.
  intros H. rewrite rnd_wf_finite by exact H.
  pose proof (wf_finite_lt_top s m e H). lia.
Qed.

(** Addition of two well-formed numbers rounds their exact sum. *)
Lemma SFadd_spec (x y : spec_float) :
  wf x -> wf y ->
  wf (SFadd prec emax x y) /\
  sv (SFadd prec emax x y) = Z.min (rnd (sv x + sv y)) top.
Proof.
  intros Hx Hy.
  pose proof (sv_nonneg x) as Px. pose proof (sv_nonneg y) as Py.
  destruct x as [sx|sx| |sx mx ex]; wf_sign Hx;
    destruct y as [sy|sy| |sy my ey]; wf_sign Hy;
    cbn [SFadd].
  - (* zero + zero *)
    assert (sv (S754_zero sx) + sv (S754_zero sy) = 0) as -> by reflexivity.
    rewrite rnd_0. destruct sx, sy; split; try apply wf_zero; reflexivity.
  - split; [exact wf_inf|]. symmetry. apply min_top_of_ge. cbn [sv] in *. lia.
  - split; [exact Hy|]. change (sv (S754_zero sx)) with 0. rewrite Z.add_0_l. symmetry.
    now apply min_top_finite.
  - split; [exact wf_inf|]. symmetry. apply min_top_of_ge. cbn [sv] in *. lia.
  - split; [exact wf_inf|]. symmetry. apply min_top_of_ge. cbn [sv] in *. lia.
  - split; [exact wf_inf|]. symmetry. apply min_top_of_ge. cbn [sv] in *. lia.
  - split; [exact Hx|]. change (sv (S754_zero sy)) with 0. rewrite Z.add_0_r. symmetry.
    now apply min_top_finite.
  - split; [exact wf_inf|]. symmetry. apply min_top_of_ge. cbn [sv] in *. lia.
  - (* finite + finite *)
    destruct (wf_finite_inv _ _ _ Hx) as (_ & Cx & _).
    destruct (wf_finite_inv _ _ _ Hy) as (_ & Cy & _).
    cbn [cond_Zopp]. set (ez := Z.min ex ey).
    assert (- bias <= ez <= ex /\ - bias <= ez <= ey) as [Hex Hey] by (unfold bias; lia).
    pose proof (aligned_mantissa mx ex ez Hex) as Ax.
    pose proof (aligned_mantissa my ey ez Hey) as Ay.
    replace (sv (S754_finite false mx ex) + sv (S754_finite false my ey))
      with ((Zpos (fst (shl_align mx ex ez)) + Zpos (fst (shl_align my ey ez)))
            * 2 ^ (ez + bias)) by (cbn [sv]; lia).
    apply binary_normalize_spec; lia.
Qed.

(** Subtraction of a smaller well-formed number rounds the exact
    difference. *)
Lemma SFsub_spec (x y : spec_float) :
  wf x -> wf y -> finite_or_zero x -> finite_or_zero y -> sv y <= sv x ->
  wf (SFsub prec emax x y) /\
  sv (SFsub prec emax x y) = Z.min (rnd (sv x - sv y)) top.
Proof.
  intros Hx Hy Fx Fy Hle.
  destruct x as [sx|sx| |sx mx ex]; try contradiction; wf_sign Hx;
    destruct y as [sy|sy| |sy my ey]; try contradiction; wf_sign Hy;
    cbn [SFsub].
  - assert (sv (S754_zero sx) - sv (S754_zero sy) = 0) as -> by reflexivity.
    rewrite rnd_0. destruct sx, sy; split; try apply wf_zero; reflexivity.
  - pose proof (wf_finite_lt_top _ _ _ Hy). cbn [sv] in *. lia.
  - split; [exact Hx|]. change (sv (S754_zero sy)) with 0. rewrite Z.sub_0_r. symmetry.
    now apply min_top_finite.
  - destruct (wf_finite_inv _ _ _ Hx) as (_ & Cx & _).
    destruct (wf_finite_inv _ _ _ Hy) as (_ & Cy & _).
    cbn [cond_Zopp]. set (ez := Z.min ex ey).
    assert (- bias <= ez <= ex /\ - bias <= ez <= ey) as [Hex Hey] by (unfold bias; lia).
    pose proof (aligned_mantissa mx ex ez Hex) as Ax.
    pose proof (aligned_mantissa my ey ez Hey) as Ay.
    pose proof (pow2_pos (ez + bias) ltac:(lia)) as HP.
    cbn [sv] in Hle.
    replace (sv (S754_finite false mx ex) - sv (S754_finite false my ey))
      with ((Zpos (fst (shl_align mx ex ez)) - Zpos (fst (shl_align my ey ez)))
            * 2 ^ (ez + bias)) by (cbn [sv]; lia).
    apply binary_normalize_spec; [nia|lia].
Qed.

(** Multiplication of two finite well-formed numbers rounds the exact
    product. *)
Lemma SFmul_spec (x y : spec_float) :
  wf x -> wf y -> finite_or_zero x -> finite_or_zero y ->
  wf (SFmul prec emax x y) /\
  sv (SFmul prec emax x y) = Z.min (rnd (sv x * sv y / 2 ^ bias)) top.
Proof.
  intros Hx Hy Fx Fy.
  assert (Z.min (rnd 0) top = 0) as Z0 by reflexivity.
  destruct x as [sx|sx| |sx mx ex]; try contradiction; wf_sign Hx;
    destruct y as [sy|sy| |sy my ey]; try contradiction; wf_sign Hy;
    cbn [SFmul];
    try (split; [apply wf_zero|]; cbn [sv];
         rewrite ?Z.mul_0_l, ?Z.mul_0_r; reflexivity).
  destruct (wf_finite_inv _ _ _ Hx) as (_ & Cx & _).
  destruct (wf_finite_inv _ _ _ Hy) as (_ & Cy & _).
  cbn [xorb].
  assert (sv (S754_finite false mx ex) * sv (S754_finite false my ey) / 2 ^ bias
          = Zpos (mx * my) * 2 ^ (ex + ey + bias)) as ->.
  { cbn [sv]. rewrite Pos2Z.inj_mul.
    replace (Zpos mx * 2 ^ (ex + bias) * (Zpos my * 2 ^ (ey + bias)))
      with (Zpos mx * Zpos my * 2 ^ (ex + ey + bias) * 2 ^ bias).
    - apply Z.div_mul. apply Z.pow_nonzero; unfold bias; lia.
    - rewrite <- !Z.mul_assoc. f_equal.
      rewrite (Z.mul_comm (2 ^ (ex + bias))), <- !Z.mul_assoc. f_equal.
      rewrite <- !Z.pow_add_r by (unfold bias; lia). f_equal. lia. }
  apply binary_round_aux_spec; [unfold bias; lia|].
  rewrite fexp64.
  pose proof (digits2_pos_bounds mx) as [Lx _].
  pose proof (digits2_pos_bounds my) as [Ly _].
  set (dx := Zpos (digits2_pos mx)) in *. set (dy := Zpos (digits2_pos my)) in *.
  assert (dx + dy - 2 < Zpos (digits2_pos (mx * my))) as Hd.
  { change (Zpos (digits2_pos (mx * my))) with (Zdigits2 (Zpos (mx * my))).
    apply Zdigits2_ge_pow; [|lia].
    replace (dx + dy - 2) with ((dx - 1) + (dy - 1)) by lia.
    rewrite Z.pow_add_r, Pos2Z.inj_mul by lia.
    apply Z.mul_le_mono_nonneg; try lia; apply Z.pow_nonneg; lia. }
  lia.
Qed.

End WellFormed.

(** ** The cost and time formula on scaled values *)

Section Formula.

Local Open Scope Z_scope.

Lemma leb_0_wf (x : float) : (0 <=? x)%float = true -> wf (Prim2SF x).
Proof.
  intros H. split; [|apply Prim2SF_valid].
  rewrite FloatAxioms.leb_spec in H.
  exact (nonneg_leb (S754_zero false) _ I H).
Qed.

Lemma leb_wf (x y : float) :
  wf (Prim2SF x) -> (x <=? y)%float = true -> wf (Prim2SF y).
Proof.
  intros [Hx _] H. split; [|apply Prim2SF_valid].
  rewrite FloatAxioms.leb_spec in H. exact (nonneg_leb _ _ Hx H).
Qed.

Lemma Prim2SF_one : Prim2SF 1 = S754_finite false 4503599627370496 (-52).
Proof. reflexivity. Qed.

Lemma wf_one : wf (Prim2SF 1).
Proof. split; reflexivity. Qed.

Lemma sv_one_lt_top : sv (Prim2SF 1) < top.
Proof.
  pose proof wf_one as W. rewrite Prim2SF_one in *.
  apply (wf_finite_lt_top _ _ _ W).
Qed.

Lemma rnd_one : rnd (sv (Prim2SF 1)) = sv (Prim2SF 1).
Proof.
  pose proof wf_one as W. rewrite Prim2SF_one in *.
  apply (rnd_wf_finite _ _ _ W).
Qed.

Lemma min_top_mono a b : a <= b -> Z.min a top <= Z.min b top.
Proof. lia. Qed.

(** The expected cost, and the expected time, as a function of the
    scaled values of the operands. *)
Lemma cost_formula_spec (p a b f : float) :
  wf (Prim2SF p) -> sv (Prim2SF p) <= sv (Prim2SF 1) ->
  wf (Prim2SF a) -> wf (Prim2SF b) ->
  wf (Prim2SF f) -> sv (Prim2SF f) < top ->
  wf (Prim2SF (a + b + (1 - p) * f)%float) /\
  sv (Prim2SF (a + b + (1 - p) * f)%float) =
    Z.min (rnd (Z.min (rnd (sv (Prim2SF a) + sv (Prim2SF b))) top +
                Z.min (rnd (Z.min (rnd (sv (Prim2SF 1) - sv (Prim2SF p))) top
                            * sv (Prim2SF f) / 2 ^ bias)) top)) top.
Proof.
  intros Hp Lp Ha Hb Hf Lf.
  pose proof sv_one_lt_top as L1.
  rewrite !add_spec, mul_spec, sub_spec. unfold SF64add, SF64mul, SF64sub.
  destruct (SFsub_spec (Prim2SF 1) (Prim2SF p) wf_one Hp) as [Wd Vd]; auto.
  { exact I. }
  { apply wf_finite_or_zero; [exact Hp | lia]. }
  assert (sv (SFsub prec emax (Prim2SF 1) (Prim2SF p)) <= sv (Prim2SF 1)) as Ld.
  { rewrite Vd. pose proof (sv_nonneg (Prim2SF p)).
    pose proof (rnd_mono (sv (Prim2SF 1) - sv (Prim2SF p)) (sv (Prim2SF 1)) ltac:(lia)) as M.
    rewrite rnd_one in M. lia. }
  destruct (SFmul_spec _ (Prim2SF f) Wd Hf) as [Wt Vt].
  { apply wf_finite_or_zero; [exact Wd | lia]. }
  { apply wf_finite_or_zero; assumption. }
  destruct (SFadd_spec _ _ Ha Hb) as [Ws Vs].
  destruct (SFadd_spec _ _ Ws Wt) as [Wc Vc].
  split; [exact Wc|]. rewrite Vc, Vs, Vt, Vd. reflexivity.
Qed.

Lemma float_leb_sv (x y : float) :
  wf (Prim2SF x) -> wf (Prim2SF y) ->
  ((x <=? y)%float = true <-> sv (Prim2SF x) <= sv (Prim2SF y)).
Proof. intros Hx Hy. rewrite FloatAxioms.leb_spec. now apply wf_leb. Qed.

Lemma float_ltb_sv (x y : float) :
  wf (Prim2SF x) -> wf (Prim2SF y) ->
  ((x <? y)%float = true <-> sv (Prim2SF x) < sv (Prim2SF y)).
Proof. intros Hx Hy. rewrite FloatAxioms.ltb_spec. now apply wf_ltb. Qed.

Lemma formula_nonincreasing (p1 p2 a b f : float) :
  (0 <=? p1)%float = true -> (p1 <=? p2)%float = true -> (p2 <=? 1)%float = true ->
  (0 <=? a)%float = true -> (0 <=? b)%float = true ->
  (0 <=? f)%float = true -> (f <? infinity)%float = true ->
  (a + b + (1 - p2) * f <=? a + b + (1 - p1) * f)%float = true.
Proof.
  intros H0 H12 H1 Ha Hb Hf Hfin.
  pose proof (leb_0_wf p1 H0) as W1. pose proof (leb_wf p1 p2 W1 H12) as W2.
  pose proof (leb_0_wf a Ha) as Wa. pose proof (leb_0_wf b Hb) as Wb.
  pose proof (leb_0_wf f Hf) as Wf.
  apply (float_leb_sv p1 p2 W1 W2) in H12.
  apply (float_leb_sv p2 1 W2 wf_one) in H1.
  assert (sv (Prim2SF f) < top) as Lf.
  { apply (float_ltb_sv f infinity Wf wf_inf) in Hfin. exact Hfin. }
  destruct (cost_formula_spec p1 a b f W1 ltac:(lia) Wa Wb Wf Lf) as [Wc1 V1].
  destruct (cost_formula_spec p2 a b f W2 H1 Wa Wb Wf Lf) as [Wc2 V2].
  apply (float_leb_sv _ _ Wc2 Wc1). rewrite V1, V2.
  pose proof (sv_nonneg (Prim2SF p1)) as N1. pose proof (sv_nonneg (Prim2SF f)) as Nf.
  pose proof (sv_nonneg (Prim2SF a)) as Na. pose proof (sv_nonneg (Prim2SF b)) as Nb.
  pose proof top_pos as HT.
  set (one := sv (Prim2SF 1)) in *.
  pose proof (rnd_nonneg (one - sv (Prim2SF p2)) ltac:(lia)) as R2.
  pose proof (rnd_mono (one - sv (Prim2SF p2)) (one - sv (Prim2SF p1)) ltac:(lia)) as M1.
  set (d1 := Z.min (rnd (one - sv (Prim2SF p1))) top) in *.
  set (d2 := Z.min (rnd (one - sv (Prim2SF p2))) top) in *.
  assert (0 <= d2 <= d1) as [D0 D12] by (subst d1 d2; lia).
  assert (0 <= d2 * sv (Prim2SF f) / 2 ^ bias <= d1 * sv (Prim2SF f) / 2 ^ bias) as [Q0 Q12].
  { split.
    - apply Z.div_pos; [nia | apply pow2_pos; unfold bias; lia].
    - apply Z.div_le_mono; [apply pow2_pos; unfold bias; lia | nia]. }
  pose proof (rnd_nonneg _ Q0) as T0.
  pose proof (rnd_mono _ _ (conj Q0 Q12)) as T12.
  pose proof (rnd_nonneg (sv (Prim2SF a) + sv (Prim2SF b)) ltac:(lia)) as S0.
  apply min_top_mono, rnd_mono. lia.
Qed.

End Formula.

(** ** Products of differences *)

Section Product.

Local Open Scope Z_scope.

Lemma rnd_wf (x : spec_float) :
  wf x -> finite_or_zero x -> rnd (sv x) = sv x.
Proof.
  intros Hx Fx. destruct x as [s|s| |s m e]; try contradiction.
  - reflexivity.
  - now apply rnd_wf_finite.
Qed.

Lemma wf_finite_sv_lt_top (x : spec_float) :
  wf x -> finite_or_zero x -> sv x < top.
Proof.
  intros Hx Fx. destruct x as [s|s| |s m e]; try contradiction.
  - exact top_pos.
  - apply (wf_finite_lt_top _ _ _ Hx).
Qed.




End Product.

(** ** Terms of the wrong sign *)

Section Credit.

Local Open Scope Z_scope.

Lemma finite_or_zero_abs (x : spec_float) :
  finite_or_zero (SFabs x) -> finite_or_zero x.
Proof. destruct x; cbn; auto. Qed.

(** Subtracting a larger number gives a finite number that is not
    positive. *)
Lemma SFsub_nonpos (x y : spec_float) :
  wf x -> wf y -> finite_or_zero x -> finite_or_zero y -> sv x < sv y ->
  nonpos (SFsub prec emax x y) /\ finite_or_zero (SFsub prec emax x y).
Proof.
  intros Hx Hy Fx Fy Hlt. split.
  - destruct x as [sx|sx| |sx mx ex]; try contradiction; wf_sign Hx;
      destruct y as [sy|sy| |sy my ey]; try contradiction; wf_sign Hy;
      cbn [SFsub sv] in *; try lia; try reflexivity.
    destruct (wf_finite_inv _ _ _ Hx) as (_ & Cx & _).
    destruct (wf_finite_inv _ _ _ Hy) as (_ & Cy & _).
    cbn [cond_Zopp]. set (ez := Z.min ex ey).
    assert (- bias <= ez <= ex /\ - bias <= ez <= ey) as [Hex Hey] by (unfold bias; lia).
    pose proof (aligned_mantissa mx ex ez Hex) as Ax.
    pose proof (aligned_mantissa my ey ez Hey) as Ay.
    pose proof (pow2_pos (ez + bias) ltac:(lia)) as HP.
    destruct (Zpos (fst (shl_align mx ex ez)) - Zpos (fst (shl_align my ey ez)))
      as [|M|M] eqn:EM; try nia.
    cbn [binary_normalize]. unfold binary_round.
    destruct (shl_align M ez _) as [mz ez'].
    pose proof (binary_round_aux_signed true (Zpos mz) ez' loc_Exact ltac:(lia)) as S.
    destruct (binary_round_aux prec emax true (Zpos mz) ez' loc_Exact); cbn in *; auto.
  - apply finite_or_zero_abs. rewrite SFsub_abs_sym.
    destruct (SFsub_spec y x Hy Hx Fy Fx ltac:(lia)) as [W V].
    pose proof (sv_nonneg x).
    pose proof (rnd_mono (sv y - sv x) (sv y) ltac:(lia)) as M.
    rewrite (rnd_wf y Hy Fy) in M.
    pose proof (wf_finite_sv_lt_top y Hy Fy).
    assert (finite_or_zero (SFsub prec emax y x)) as F.
    { apply wf_finite_or_zero; [exact W | lia]. }
    destruct (SFsub prec emax y x); cbn in *; auto.
Qed.

Lemma SFmul_nonpos (x y : spec_float) :
  nonpos x -> finite_or_zero x -> nonneg y -> finite_or_zero y ->
  nonpos (SFmul prec emax x y).
Proof.
  intros Nx Fx Ny Fy.
  destruct x as [sx|sx| |sx mx ex]; try contradiction;
    destruct y as [sy|sy| |sy my ey]; try contradiction;
    cbn [SFmul nonpos nonneg] in *; auto.
  subst sx sy. cbn [xorb].
  pose proof (binary_round_aux_signed true (Zpos (mx * my)) (ex + ey) loc_Exact ltac:(lia)) as S.
  destruct (binary_round_aux prec emax true _ _ _); cbn in *; auto.
Qed.

Lemma SFleb_nonpos_nonneg (x y : spec_float) :
  nonpos x -> nonneg y -> SFleb x y = true.
Proof.
  unfold SFleb.
  destruct x as [sx|sx| |sx mx ex], y as [sy|sy| |sy my ey];
    cbn [nonpos nonneg SFcompare]; try contradiction; auto;
    intros; subst; reflexivity.
Qed.

(** Adding a term that is not positive to a finite well-formed number
    does not increase it. *)
Lemma SFadd_nonpos_le (x t : spec_float) :
  wf x -> finite_or_zero x -> nonpos t -> valid_binary t = true ->
  SFleb (SFadd prec emax x t) x = true.
Proof.
  intros Hx Fx Nt Vt.
  destruct x as [sx|sx| |sx mx ex]; try contradiction; wf_sign Hx;
    destruct t as [st|st| |st mt et]; try contradiction;
    cbn [nonpos] in Nt; try subst st; cbn [SFadd].
  - destruct sx, st; reflexivity.
  - reflexivity.
  - reflexivity.
  - apply (wf_leb _ _ Hx Hx). lia.
  - reflexivity.
  - destruct (wf_finite_inv _ _ _ Hx) as (_ & Cx & _).
    cbn [valid_binary] in Vt. apply bounded64 in Vt. destruct Vt as [Ct _].
    cbn [cond_Zopp]. set (ez := Z.min ex et).
    assert (- bias <= ez <= ex /\ - bias <= ez <= et) as [Hex Het] by (unfold bias; lia).
    pose proof (aligned_mantissa mx ex ez Hex) as Ax.
    pose proof (pow2_pos (ez + bias) ltac:(lia)) as HP.
    set (M := Zpos (fst (shl_align mx ex ez)) + - Zpos (fst (shl_align mt et ez))).
    destruct (Z_lt_le_dec M 0) as [Neg|Pos].
    + apply SFleb_nonpos_nonneg; [|reflexivity].
      destruct M as [|M'|M'] eqn:EM; try lia.
      cbn [binary_normalize]. unfold binary_round.
      destruct (shl_align M' ez _) as [mz ez'].
      pose proof (binary_round_aux_signed true (Zpos mz) ez' loc_Exact ltac:(lia)) as S.
      destruct (binary_round_aux prec emax true (Zpos mz) ez' loc_Exact); cbn in *; auto.
    + destruct (binary_normalize_spec M ez Pos ltac:(lia)) as [W V].
      apply (wf_leb _ _ W Hx). rewrite V.
      pose proof (rnd_mono (M * 2 ^ (ez + bias)) (sv (S754_finite false mx ex))) as R.
      rewrite (rnd_wf _ Hx I) in R.
      assert (0 <= M * 2 ^ (ez + bias) <= sv (S754_finite false mx ex)) as B.
      { cbn [sv]. subst M. nia. }
      specialize (R B). lia.
Qed.

(** With a reliability above 1 the rework term is a credit: the formula
    yields at most the sum of its first two terms. *)
Lemma formula_credit (p a b f : float) :
  (1 <? p)%float = true -> (p <? infinity)%float = true ->
  (0 <=? a)%float = true -> (0 <=? b)%float = true ->
  (a + b <? infinity)%float = true ->
  (0 <=? f)%float = true -> (f <? infinity)%float = true ->
  (a + b + (1 - p) * f <=? a + b)%float = true.
Proof.
  intros H1 Hp Ha Hb Hab Hf Hfin.
  pose proof (leb_wf 1 p wf_one (ltb_leb _ _ H1)) as Wp.
  pose proof (leb_0_wf a Ha) as Wa. pose proof (leb_0_wf b Hb) as Wb.
  pose proof (leb_0_wf f Hf) as Wf.
  apply (float_ltb_sv 1 p wf_one Wp) in H1.
  apply (float_ltb_sv p infinity Wp wf_inf) in Hp.
  apply (float_ltb_sv f infinity Wf wf_inf) in Hfin.
  change (sv (Prim2SF infinity)) with top in *.
  destruct (SFadd_spec _ _ Wa Wb) as [Ws _].
  assert (wf (Prim2SF (a + b)%float)) as Ws' by (rewrite add_spec; exact Ws).
  apply (float_ltb_sv (a + b) infinity Ws' wf_inf) in Hab.
  change (sv (Prim2SF infinity)) with top in Hab.
  destruct (SFsub_nonpos (Prim2SF 1) (Prim2SF p) wf_one Wp I
              (wf_finite_or_zero _ Wp Hp) H1) as [Nd Fd].
  pose proof (SFmul_nonpos _ (Prim2SF f) Nd Fd (proj1 Wf)
                (wf_finite_or_zero _ Wf Hfin)) as Nt.
  rewrite FloatAxioms.leb_spec, (add_spec (a + b)).
  apply SFadd_nonpos_le.
  - exact Ws'.
  - apply wf_finite_or_zero; assumption.
  - rewrite mul_spec, sub_spec. exact Nt.
  - apply Prim2SF_valid.
Qed.

End Credit.

(** ** The search loop *)

Section SearchLoop.





End SearchLoop.

(** * The properties *)

(** C1: with the scenario the script wires in (fast worker p = 0.7, w = 360,
    tWork = 3; slow worker p = 0.95, w = 480, tWork = 4; C = 120, F = 315,
    tVerify = 0.75, tFix = 2.25) the expected cost is 574.5 for the fast
    worker and 615.75 for the slow one, and the expected time is 4.425 h and
    4.8625 h: the computed numbers are the binary64 values of these
    decimals, hence within 1e-9 of them. *)
Theorem default_scenario_values :
  let costFast :=
    expectedCostWithVerification (Worker.p fastWorker) (Worker.w fastWorker)
      (SharedCost.C sharedCost) (SharedCost.F sharedCost) in
  let costSlow :=
    expectedCostWithVerification (Worker.p slowWorker) (Worker.w slowWorker)
      (SharedCost.C sharedCost) (SharedCost.F sharedCost) in
  let timeFast :=
    expectedTimeWithVerification (Worker.p fastWorker) (Worker.tWork fastWorker)
      (SharedTime.tVerify sharedTime) (SharedTime.tFix sharedTime) in
  let timeSlow :=
    expectedTimeWithVerification (Worker.p slowWorker) (Worker.tWork slowWorker)
      (SharedTime.tVerify sharedTime) (SharedTime.tFix sharedTime) in
  (Worker.p fastWorker = 0.7 /\ Worker.w fastWorker = 360 /\
   Worker.tWork fastWorker = 3) /\
  (Worker.p slowWorker = 0.95 /\ Worker.w slowWorker = 480 /\
   Worker.tWork slowWorker = 4) /\
  (SharedCost.C sharedCost = 120 /\ SharedCost.F sharedCost = 315 /\
   SharedTime.tVerify sharedTime = 0.75 /\ SharedTime.tFix sharedTime = 2.25) /\
  (costFast = 574.5 /\ costSlow = 615.75 /\
   timeFast = 4.425 /\ timeSlow = 4.8625) /\
  within 1e-9 costFast 574.5 /\ within 1e-9 costSlow 615.75 /\
  within 1e-9 timeFast 4.425 /\ within 1e-9 timeSlow 4.8625.
Proof.
  cbv zeta. unfold within. repeat split; vm_compute; reflexivity.
Qed.

(** C2: for every worker, shared cost, shared time and attempts count [n]
    (non-negative or not), the summary's per-job cost and time are those of
    the primitives, its totals are [n] times them, its first-pass counts are
    [p * n] and [(1 - p) * n], and its finished units are [n]. *)
Theorem batch_totals (label : string) (n : float) (worker : Worker.t)
    (sc : SharedCost.t) (st : SharedTime.t) :
  let s := summarizeBatchByAttempts label n worker sc st in
  BatchSummary.costPerJob s =
    expectedCostWithVerification (Worker.p worker) (Worker.w worker)
      (SharedCost.C sc) (SharedCost.F sc) /\
  BatchSummary.timePerJob s =
    expectedTimeWithVerification (Worker.p worker) (Worker.tWork worker)
      (SharedTime.tVerify st) (SharedTime.tFix st) /\
  BatchSummary.totalCost s = n * BatchSummary.costPerJob s /\
  BatchSummary.totalTime s = n * BatchSummary.timePerJob s /\
  BatchSummary.expectedCorrectFirstPass s = Worker.p worker * n /\
  BatchSummary.expectedWrongFirstPass s = (1 - Worker.p worker) * n /\
  BatchSummary.finishedCorrectUnits s = n.
Proof.
  cbv zeta. unfold summarizeBatchByAttempts.
  cbn [BatchSummary.costPerJob BatchSummary.timePerJob BatchSummary.totalCost
       BatchSummary.totalTime BatchSummary.expectedCorrectFirstPass
       BatchSummary.expectedWrongFirstPass BatchSummary.finishedCorrectUnits].
  repeat split.
Qed.

(** C3: for every [pFast >= 0] (zeros of either sign and [+Infinity]
    included) the capped work time is at least half of the slow worker's
    work time, and at [pFast = 0] it is exactly that. *)
Theorem capped_speed_floor (pFast : float) :
  (0 <=? pFast) = true ->
  (0.5 * Worker.tWork slowWorker <=? tWorkFastCapped pFast) = true /\
  tWorkFastCapped 0 = 0.5 * Worker.tWork slowWorker.
Proof.
  intros H. split; [|vm_compute; reflexivity].
  change (0.5 * Worker.tWork slowWorker) with (Worker.tWork slowWorker * 0.5).
  unfold tWorkFastCapped. apply Math_max_ge_r; [|vm_compute; reflexivity].
  apply nonneg_not_nan. rewrite mul_spec, div_spec.
  apply leb_0_nonneg in H.
  exact (SFmul_nonneg _ _ _ (SFdiv_nonneg _ _ _ H)).
Qed.

(** C3 at [pFast = 0.1], where the cap is active. *)
Lemma capped_speed_floor_witness :
  (0 <=? 0.1) = true /\
  (0.5 * Worker.tWork slowWorker <=? tWorkFastCapped 0.1) = true /\
  tWorkFastCapped 0 = 0.5 * Worker.tWork slowWorker.
Proof.
  split; [reflexivity | apply (capped_speed_floor 0.1); reflexivity].
Defined.


(** C5, refuted as stated: with [F = 0] (allowed by [F >= 0]) the expected
    cost is the same 480 at [p = 0.7] and at [p = 0.95], so higher
    reliability does not strictly lower it. *)
Lemma cost_not_strictly_decreasing :
  (0.7 <? 0.95) = true /\
  expectedCostWithVerification 0.7 360 120 0 = 480 /\
  expectedCostWithVerification 0.95 360 120 0 = 480 /\
  (expectedCostWithVerification 0.95 360 120 0
     <? expectedCostWithVerification 0.7 360 120 0) = false.
Proof. vm_compute. repeat split. Qed.

(** Nor is the decrease strict for every [F > 0]: binary64 addition
    absorbs a rework term that is small next to the wage. *)
Lemma cost_absorbs_small_rework :
  (0 <? 315) = true /\
  expectedCostWithVerification 0.95 1e20 120 315 =
  expectedCostWithVerification 0.7 1e20 120 315.
Proof. vm_compute. repeat split. Qed.

(** C5, amended: for [p1 < p2] in [0,1], [w, C >= 0] and finite [F >= 0],
    the expected cost at [p2] is at most the expected cost at [p1]: the
    cost is non-increasing in the reliability. *)
Theorem cost_nonincreasing (p1 p2 w C F : float) :
  (0 <=? p1) = true -> (p1 <? p2) = true -> (p2 <=? 1) = true ->
  (0 <=? w) = true -> (0 <=? C) = true ->
  (0 <=? F) = true -> (F <? infinity) = true ->
  (expectedCostWithVerification p2 w C F
     <=? expectedCostWithVerification p1 w C F) = true.
Proof.
  intros H0 H12 H1 Hw HC HF Hfin. unfold expectedCostWithVerification.
  apply formula_nonincreasing; auto using ltb_leb.
Qed.

(** C5 (amended) on the two workers of the scenario. *)
Lemma cost_nonincreasing_witness :
  (0 <=? 0.7) = true /\ (0.7 <? 0.95) = true /\ (0.95 <=? 1) = true /\
  (0 <=? 360) = true /\ (0 <=? 120) = true /\
  (0 <=? 315) = true /\ (315 <? infinity) = true /\
  (expectedCostWithVerification 0.95 360 120 315
     <=? expectedCostWithVerification 0.7 360 120 315) = true.
Proof.
  do 7 (split; [reflexivity|]).
  apply (cost_nonincreasing 0.7 0.95 360 120 315); reflexivity.
Defined.





(** C8, refuted as stated: a worker with [p = 1.5] is built like any
    other, and its expected cost and time come out negative, without any
    error. *)
Lemma out_of_range_probability_accepted :
  let wk := Worker.mk "Overconfident" 1.5 10 1 in
  let sc := SharedCost.mk 20 100 in
  let st := SharedTime.mk 0.25 4 in
  let s := summarizeBatchByAttempts (Worker.label wk) 1 wk sc st in
  (Worker.p wk <=? 1) = false /\
  BatchSummary.p s = 1.5 /\
  BatchSummary.costPerJob s = (-20)%float /\
  BatchSummary.timePerJob s = (-0.75)%float /\
  (BatchSummary.totalCost s <? 0) = true /\
  (BatchSummary.totalTime s <? 0) = true.
Proof. vm_compute. repeat split. Qed.

(** No constructor or function checks a worker's fields: whatever number
    [p] is, the record carries it unchanged and the formulas are evaluated
    on it, directly and through the comparator and the batch summary. *)
Lemma worker_fields_flow
    (label : string) (p w tWork n : float)
    (sc : SharedCost.t) (st : SharedTime.t) :
  let wk := Worker.mk label p w tWork in
  let s := summarizeBatchByAttempts label n wk sc st in
  let r := compareWorkersCostAndSpeed wk wk sc st in
  Worker.p wk = p /\ BatchSummary.p s = p /\
  BatchSummary.costPerJob s =
    w + SharedCost.C sc + (1 - p) * SharedCost.F sc /\
  BatchSummary.timePerJob s =
    tWork + SharedTime.tVerify st + (1 - p) * SharedTime.tFix st /\
  CostCmp.costA (Comparison.cost r) = BatchSummary.costPerJob s /\
  TimeCmp.timeA (Comparison.time r) = BatchSummary.timePerJob s.
Proof.
  cbv zeta. repeat split.
Qed.

(** C8, amended: worker records are built without validation, and a
    reliability above 1 propagates silently.  For every finite [p > 1],
    with the other parameters non-negative and finite, the record carries
    [p] and the rework term is credited instead of charged: the expected
    cost is at most [w + C] and the expected time at most
    [tWork + tVerify]. *)
Theorem worker_probability_unchecked
    (label : string) (p w tWork n : float)
    (sc : SharedCost.t) (st : SharedTime.t) :
  (1 <? p) = true -> (p <? infinity) = true ->
  (0 <=? w) = true -> (0 <=? SharedCost.C sc) = true ->
  (w + SharedCost.C sc <? infinity) = true ->
  (0 <=? SharedCost.F sc) = true -> (SharedCost.F sc <? infinity) = true ->
  (0 <=? tWork) = true -> (0 <=? SharedTime.tVerify st) = true ->
  (tWork + SharedTime.tVerify st <? infinity) = true ->
  (0 <=? SharedTime.tFix st) = true -> (SharedTime.tFix st <? infinity) = true ->
  let wk := Worker.mk label p w tWork in
  let s := summarizeBatchByAttempts label n wk sc st in
  Worker.p wk = p /\ BatchSummary.p s = p /\
  (BatchSummary.costPerJob s <=? w + SharedCost.C sc) = true /\
  (BatchSummary.timePerJob s <=? tWork + SharedTime.tVerify st) = true.
Proof.
  intros H1 Hp Hw HC HwC HF HFfin Ht Hv Htv Hx Hxfin. cbv zeta.
  unfold summarizeBatchByAttempts, expectedCostWithVerification,
    expectedTimeWithVerification.
  cbn [BatchSummary.p BatchSummary.costPerJob BatchSummary.timePerJob
       Worker.p Worker.w Worker.tWork].
  repeat split; apply formula_credit; assumption.
Qed.

(** C8 (amended) at [p = 1.5]: the expected cost -20 is below
    [w + C = 30], the expected time -0.75 below [tWork + tVerify = 1.25]. *)
Lemma worker_probability_unchecked_witness :
  let sc := SharedCost.mk 20 100 in
  let st := SharedTime.mk 0.25 4 in
  let wk := Worker.mk "Overconfident" 1.5 10 1 in
  let s := summarizeBatchByAttempts "Overconfident" 1 wk sc st in
  ((1 <? 1.5) = true /\ (1.5 <? infinity) = true) /\
  ((0 <=? 10) = true /\ (0 <=? 20) = true /\ (10 + 20 <? infinity) = true) /\
  ((0 <=? 100) = true /\ (100 <? infinity) = true) /\
  ((0 <=? 1) = true /\ (0 <=? 0.25) = true /\ (1 + 0.25 <? infinity) = true) /\
  ((0 <=? 4) = true /\ (4 <? infinity) = true) /\
  Worker.p wk = 1.5 /\ BatchSummary.p s = 1.5 /\
  (BatchSummary.costPerJob s <=? 10 + 20) = true /\
  (BatchSummary.timePerJob s <=? 1 + 0.25) = true.
Proof.
  cbv zeta. do 5 (split; [repeat split|]).
  apply (worker_probability_unchecked "Overconfident" 1.5 10 1 1
           (SharedCost.mk 20 100) (SharedTime.mk 0.25 4)); reflexivity.
Defined.

(** C9, refuted as stated: a worker that needs no time at all
    ([tWork = 0], [p = 1], nothing to verify or fix) gets a time per job of
    zero, and the throughput and the attempts that fit in the sprint are
    silently [Infinity]; a negative time gives negative results. *)
Lemma zero_time_yields_infinity :
  let idle := Worker.mk "Instant" 1 0 0 in
  let free := SharedTime.mk 0 0 in
  let r := compareWorkersCostAndSpeed idle idle sharedCost free in
  TimeCmp.timeA (Comparison.time r) = 0 /\
  TimeCmp.throughputA (Comparison.time r) = infinity /\
  jobsPerHour 0 = infinity /\
  Math_floor (sprintHours / TimeCmp.timeA (Comparison.time r)) = infinity /\
  jobsPerHour (-1)%float = (-1)%float /\
  Math_floor (sprintHours / -4) = (-20)%float.
Proof. vm_compute. repeat split. Qed.

(** C9, amended: no error is raised.  For a time per job of zero (of either
    sign) the throughput is an infinity, and so is the number of attempts
    that fit in any positive budget. *)
Theorem degenerate_time_is_silent (t budget : float) :
  is_zero t = true -> (0 <? budget) = true ->
  abs (jobsPerHour t) = infinity /\
  abs (Math_floor (budget / t)) = infinity.
Proof.
  intros Ht Hb. apply is_zero_spec in Ht. destruct Ht as [s Ht].
  apply ltb_0_pos in Hb.
  assert (forall x, match Prim2SF x with
                    | S754_infinity false | S754_finite false _ _ => True
                    | _ => False
                    end -> abs (x / t) = infinity) as Hdiv.
  { intros x Hx. apply Prim2SF_inj. rewrite abs_spec, div_spec, Ht.
    unfold SF64div.
    destruct (Prim2SF x) as [?|[|]| |[|] ? ?]; try contradiction; reflexivity. }
  split.
  - unfold jobsPerHour. apply Hdiv. exact I.
  - rewrite Math_floor_infinite; auto.
Qed.

(** C9 (amended) on the sprint of the scenario. *)
Lemma degenerate_time_is_silent_witness :
  is_zero 0 = true /\ (0 <? sprintHours) = true /\
  abs (jobsPerHour 0) = infinity /\
  abs (Math_floor (sprintHours / 0)) = infinity.
Proof.
  split; [reflexivity|]. split; [reflexivity|].
  apply (degenerate_time_is_silent 0 sprintHours); reflexivity.
Defined.

(** C10, refuted as stated: when the two costs differ by exactly [1e-9],
    [compareWorkersCostAndSpeed] reports no winner while
    [compareWorkersWithVerification] reports ["B"]. *)
Lemma variants_disagree_at_tolerance :
  let a := Worker.mk "A" 1 1e-9 0 in
  let b := Worker.mk "B" 1 0 0 in
  let sc := SharedCost.mk 0 0 in
  let st := SharedTime.mk 0 0 in
  let old := Economics.compareWorkersWithVerification a b sc in
  let new := Comparison.cost (compareWorkersCostAndSpeed a b sc st) in
  CostCmp.costA new = 1e-9 /\ CostCmp.costB new = 0 /\
  Math_abs (CostCmp.costA new - CostCmp.costB new) = 1e-9 /\
  CostCmp.cheaper new = None /\ CostCmp.cheaper old = Some B.
Proof. vm_compute. repeat split. Qed.

(** C10, amended: [expectedCostWithVerification] is the same function in
    both files, and the two comparators return the same [costA] and [costB]
    for all inputs, and the same cheaper label exactly when the cost
    difference is strictly below or strictly above [1e-9]; otherwise (a
    difference of exactly [1e-9], or NaN) [compareWorkersCostAndSpeed]
    returns [null] and [compareWorkersWithVerification] a label. *)
Theorem variants_agree_off_tolerance
    (a b : Worker.t) (sc : SharedCost.t) (st : SharedTime.t) (p w C F : float) :
  let old := Economics.compareWorkersWithVerification a b sc in
  let new := Comparison.cost (compareWorkersCostAndSpeed a b sc st) in
  let d := Math_abs (CostCmp.costA new - CostCmp.costB new) in
  Economics.expectedCostWithVerification p w C F =
    expectedCostWithVerification p w C F /\
  CostCmp.costA old = CostCmp.costA new /\
  CostCmp.costB old = CostCmp.costB new /\
  (CostCmp.cheaper old = CostCmp.cheaper new <->
   (d <? 1e-9) = true \/ (1e-9 <? d) = true) /\
  ((d <? 1e-9) = false -> (1e-9 <? d) = false ->
   CostCmp.cheaper new = None /\ CostCmp.cheaper old <> None).
Proof.
  cbv zeta.
  unfold Economics.compareWorkersWithVerification, compareWorkersCostAndSpeed,
    Economics.expectedCostWithVerification, expectedCostWithVerification.
  cbn [Comparison.cost CostCmp.costA CostCmp.costB CostCmp.cheaper].
  set (ca := Worker.w a + SharedCost.C sc + (1 - Worker.p a) * SharedCost.F sc).
  set (cb := Worker.w b + SharedCost.C sc + (1 - Worker.p b) * SharedCost.F sc).
  assert ((Math_abs (ca - cb) <? 1e-9) = false ->
          (1e-9 <? Math_abs (ca - cb)) = false ->
          (if 1e-9 <? Math_abs (ca - cb)
           then if ca <? cb then Some A else Some B else None) = None /\
          CostCmp.cheaper
            (if Math_abs (ca - cb) <? 1e-9 then CostCmp.mk ca cb None 0
             else if ca <? cb then CostCmp.mk ca cb (Some A) (cb - ca)
                  else CostCmp.mk ca cb (Some B) (ca - cb)) <> None) as Hedge.
  { intros H1 H2. rewrite H1, H2. split; [reflexivity|].
    destruct (ca <? cb); discriminate. }
  split; [reflexivity|].
  destruct (Math_abs (ca - cb) <? 1e-9) eqn:H1.
  - rewrite (ltb_asym _ _ H1) in *. repeat split; auto; discriminate.
  - destruct (1e-9 <? Math_abs (ca - cb)) eqn:H2.
    + destruct (ca <? cb); repeat split; auto; discriminate.
    + destruct (Hedge eq_refl eq_refl) as [_ Hne].
      destruct (ca <? cb); cbn [CostCmp.cheaper CostCmp.costA CostCmp.costB] in *;
        repeat split; auto; try discriminate; intros [?|?]; discriminate.
Qed.

(** C10 (amended) on the two workers of the scenario, whose costs differ
    by 41.25: the labels agree. *)
Lemma variants_agree_off_tolerance_witness :
  let old := Economics.compareWorkersWithVerification
               fastWorker slowWorker sharedCost in
  let new := Comparison.cost
               (compareWorkersCostAndSpeed
                  fastWorker slowWorker sharedCost sharedTime) in
  (1e-9 <? Math_abs (CostCmp.costA new - CostCmp.costB new)) = true /\
  Economics.expectedCostWithVerification 0.7 360 120 315 =
    expectedCostWithVerification 0.7 360 120 315 /\
  CostCmp.costA old = CostCmp.costA new /\
  CostCmp.costB old = CostCmp.costB new /\
  CostCmp.cheaper old = CostCmp.cheaper new.
Proof.
  cbv zeta. split; [vm_compute; reflexivity|].
  destruct (variants_agree_off_tolerance
              fastWorker slowWorker sharedCost sharedTime 0.7 360 120 315)
    as (He & Ha & Hb & Hl & _).
  split; [exact He|]. split; [exact Ha|]. split; [exact Hb|].
  apply Hl. right. vm_compute. reflexivity.
Defined.

(** * Further properties *)

(** X1: the expected time has the shape of the expected cost, and like it
    is non-increasing in the reliability: for [p1 < p2] in [0,1],
    [tWork, tVerify >= 0] and finite [tFix >= 0], the time at [p2] is at
    most the time at [p1]. *)
Theorem time_nonincreasing (p1 p2 tWork tVerify tFix : float) :
  (0 <=? p1) = true -> (p1 <? p2) = true -> (p2 <=? 1) = true ->
  (0 <=? tWork) = true -> (0 <=? tVerify) = true ->
  (0 <=? tFix) = true -> (tFix <? infinity) = true ->
  (expectedTimeWithVerification p2 tWork tVerify tFix
     <=? expectedTimeWithVerification p1 tWork tVerify tFix) = true.
Proof.
  intros H0 H12 H1 Hw Hv Hx Hfin. unfold expectedTimeWithVerification.
  apply formula_nonincreasing; auto using ltb_leb.
Qed.

(** X1 on the two workers of the scenario (with the same work time). *)
Lemma time_nonincreasing_witness :
  (0 <=? 0.7) = true /\ (0.7 <? 0.95) = true /\ (0.95 <=? 1) = true /\
  (0 <=? 3) = true /\ (0 <=? 0.75) = true /\
  (0 <=? 2.25) = true /\ (2.25 <? infinity) = true /\
  (expectedTimeWithVerification 0.95 3 0.75 2.25
     <=? expectedTimeWithVerification 0.7 3 0.75 2.25) = true.
Proof.
  do 7 (split; [reflexivity|]).
  apply (time_nonincreasing 0.7 0.95 3 0.75 2.25); reflexivity.
Defined.

(** X2: a batch of zero attempts is representable: when the per-job cost
    and time and the reliability are finite, its totals and its first-pass
    counts are zero and it finishes zero units. *)
Theorem zero_attempt_batch
    (label : string) (worker : Worker.t)
    (sc : SharedCost.t) (st : SharedTime.t) :
  let s := summarizeBatchByAttempts label 0 worker sc st in
  is_finite (BatchSummary.costPerJob s) = true ->
  is_finite (BatchSummary.timePerJob s) = true ->
  is_finite (Worker.p worker) = true ->
  is_finite (1 - Worker.p worker) = true ->
  is_zero (BatchSummary.totalCost s) = true /\
  is_zero (BatchSummary.totalTime s) = true /\
  is_zero (BatchSummary.expectedCorrectFirstPass s) = true /\
  is_zero (BatchSummary.expectedWrongFirstPass s) = true /\
  BatchSummary.finishedCorrectUnits s = 0.
Proof.
  cbv zeta. unfold summarizeBatchByAttempts.
  cbn [BatchSummary.costPerJob BatchSummary.timePerJob BatchSummary.totalCost
       BatchSummary.totalTime BatchSummary.expectedCorrectFirstPass
       BatchSummary.expectedWrongFirstPass BatchSummary.finishedCorrectUnits].
  intros Hc Ht Hp Hq.
  repeat split; auto using zero_mul_finite, finite_mul_zero.
Qed.

(** X2 on the slow worker of the scenario. *)
Lemma zero_attempt_batch_witness :
  let s := summarizeBatchByAttempts "none" 0 slowWorker sharedCost sharedTime in
  is_finite (BatchSummary.costPerJob s) = true /\
  is_finite (BatchSummary.timePerJob s) = true /\
  is_zero (BatchSummary.totalCost s) = true /\
  is_zero (BatchSummary.totalTime s) = true /\
  is_zero (BatchSummary.expectedCorrectFirstPass s) = true /\
  is_zero (BatchSummary.expectedWrongFirstPass s) = true /\
  BatchSummary.finishedCorrectUnits s = 0.
Proof.
  cbv zeta. do 2 (split; [reflexivity|]).
  apply (zero_attempt_batch "none" slowWorker sharedCost sharedTime); reflexivity.
Defined.
